(** * EM for a mixture of multinomials: the [EM_algo] class of
    [3_EM_Algorithm_Tutorial.ipynb]

    The notebook computes on [numpy] float64 arrays.  The embedding keeps the
    special values of IEEE arithmetic (the two infinities and NaN) and takes
    the finite values to be exact real numbers: no rounding, no overflow and no
    underflow, and a single zero, treated as +0.  Python exceptions are results
    of an error type; [numpy] run-time warnings are not exceptions and are not
    modelled. *)

From Stdlib Require Import String.
From Stdlib Require Import Reals Lra Lia List Arith ZArith Bool.
Import ListNotations.
Open Scope R_scope.

(** ** Floating-point values *)

Inductive float64 : Type :=
| Fin (r : R)
| PInf
| NInf
| NaN.

Definition Rsign (r : R) : comparison :=
  if Rlt_dec 0 r then Gt else if Rlt_dec r 0 then Lt else Eq.

Definition fneg (a : float64) : float64 :=
  match a with
  | Fin r => Fin (- r)
  | PInf => NInf
  | NInf => PInf
  | NaN => NaN
  end.

Definition fadd (a b : float64) : float64 :=
  match a, b with
  | NaN, _ | _, NaN => NaN
  | Fin x, Fin y => Fin (x + y)
  | PInf, NInf | NInf, PInf => NaN
  | PInf, _ | _, PInf => PInf
  | NInf, _ | _, NInf => NInf
  end.

Definition fsub (a b : float64) : float64 := fadd a (fneg b).

(** [signed_inf c] is the infinity of sign [c]; a zero sign gives NaN, as in
    [0 * inf]. *)
Definition signed_inf (c : comparison) : float64 :=
  match c with
  | Gt => PInf
  | Lt => NInf
  | Eq => NaN
  end.

Definition fmul (a b : float64) : float64 :=
  match a, b with
  | NaN, _ | _, NaN => NaN
  | Fin x, Fin y => Fin (x * y)
  | Fin x, PInf | PInf, Fin x => signed_inf (Rsign x)
  | Fin x, NInf | NInf, Fin x => signed_inf (CompOpp (Rsign x))
  | PInf, PInf | NInf, NInf => PInf
  | PInf, NInf | NInf, PInf => NInf
  end.

(** Division of arrays never raises in [numpy]: [x / 0] is an infinity of the
    sign of [x] and [0 / 0] is NaN. *)
Definition fdiv (a b : float64) : float64 :=
  match a, b with
  | NaN, _ | _, NaN => NaN
  | Fin x, Fin y =>
      match Rsign y with
      | Eq => signed_inf (Rsign x)
      | _ => Fin (x / y)
      end
  | Fin _, PInf | Fin _, NInf => Fin 0
  | PInf, Fin y => match Rsign y with Lt => NInf | _ => PInf end
  | NInf, Fin y => match Rsign y with Lt => PInf | _ => NInf end
  | PInf, PInf | PInf, NInf | NInf, PInf | NInf, NInf => NaN
  end.

(** [np.log] *)
Definition flog (a : float64) : float64 :=
  match a with
  | Fin x =>
      match Rsign x with
      | Gt => Fin (ln x)
      | Eq => NInf
      | Lt => NaN
      end
  | PInf => PInf
  | NInf => NaN
  | NaN => NaN
  end.

(** [np.exp], exact on the finite values.  The float64 function returns 0
    below about -745 and infinity above about 709; this one does neither.
    The difference cannot be seen where the code applies [np.exp] to
    max-shifted values (the likelihood of [complete_ll]: every argument is at
    most 0 and one of them is 0), to minus infinity or to NaN.  It can be seen
    in the unshifted [np.exp(dt_temp)] of the responsibilities, so what is
    stated about them is stated for log-weights within that range, or for NaN. *)
Definition fexp (a : float64) : float64 :=
  match a with
  | Fin x => Fin (exp x)
  | PInf => PInf
  | NInf => Fin 0
  | NaN => NaN
  end.

(** The maximum used by [np.max]: NaN propagates. *)
Definition fmax (a b : float64) : float64 :=
  match a, b with
  | NaN, _ | _, NaN => NaN
  | Fin x, Fin y => Fin (Rmax x y)
  | PInf, _ | _, PInf => PInf
  | NInf, c => c
  | c, NInf => c
  end.

(** [a < b]: false as soon as one side is NaN. *)
Definition flt (a b : float64) : bool :=
  match a, b with
  | NaN, _ | _, NaN => false
  | Fin x, Fin y => if Rlt_dec x y then true else false
  | PInf, _ | _, NInf => false
  | NInf, _ | _, PInf => true
  end.

Definition is_finite (a : float64) : Prop :=
  match a with Fin _ => True | _ => False end.

(** ** Exceptions *)

Inductive exn : Type :=
| ValueError
| IndexError
| ZeroDivisionError
| AttributeError.

Inductive result (A : Type) : Type :=
| Ok (a : A)
| Raise (e : exn).

Arguments Ok {A} a.
Arguments Raise {A} e.

Definition bind {A B : Type} (c : result A) (k : A -> result B) : result B :=
  match c with
  | Ok a => k a
  | Raise e => Raise e
  end.

Notation "x <- c ;; k" := (bind c (fun x => k))
  (at level 61, c at next level, right associativity).

Fixpoint mapM {A B : Type} (f : A -> result B) (l : list A) : result (list B) :=
  match l with
  | [] => Ok []
  | a :: l' => b <- f a ;; bs <- mapM f l' ;; Ok (b :: bs)
  end.

(** ** Arrays *)

(** A two-dimensional array: its rows and the length of its second axis, which
    the rows alone do not determine when there is no row. *)
Record ndarray2 : Type := mk_ndarray2 {
  ncols : nat;
  rows : list (list float64)
}.

Definition shape0 (a : ndarray2) : nat := length (rows a).
Definition shape1 (a : ndarray2) : nat := ncols a.

(** [a[i]] on a list or on the first axis of an array. *)
Definition index {A : Type} (l : list A) (i : nat) : result A :=
  match nth_error l i with
  | Some x => Ok x
  | None => Raise IndexError
  end.

(** [a.sum()] of a one-dimensional array; the sum of no element is [0.0]. *)
Definition np_sum (l : list float64) : float64 :=
  fold_right fadd (Fin 0) l.

(** [a * b] on one-dimensional arrays, with broadcasting of a length-1 side. *)
Definition np_mul (a b : list float64) : result (list float64) :=
  if Nat.eqb (length a) (length b) then
    Ok (map (fun p => fmul (fst p) (snd p)) (combine a b))
  else
    match a, b with
    | [x], _ => Ok (map (fun y => fmul x y) b)
    | _, [y] => Ok (map (fun x => fmul x y) a)
    | _, _ => Raise ValueError
    end.

Definition row_max (r : list float64) : float64 :=
  match r with
  | [] => NaN
  | x :: r' => fold_left fmax r' x
  end.

(** [np.max(a, 1)]: a reduction with no identity, refused over an axis of
    length zero. *)
Definition np_max1 (a : ndarray2) : result (list float64) :=
  if Nat.eqb (ncols a) 0 then Raise ValueError
  else Ok (map row_max (rows a)).

(** [a.sum(1)] *)
Definition np_sum1 (a : ndarray2) : list float64 := map np_sum (rows a).

Definition column (j : nat) (a : ndarray2) : list float64 :=
  map (fun r => nth j r NaN) (rows a).

(** [a.sum(0)] *)
Definition np_sum0 (a : ndarray2) : list float64 :=
  map (fun j => np_sum (column j a)) (seq 0 (ncols a)).

(** [a.T] *)
Definition transpose (a : ndarray2) : ndarray2 :=
  {| ncols := shape0 a;
     rows := map (fun j => column j a) (seq 0 (ncols a)) |}.

(** [np.dot(a, b)] on two-dimensional arrays. *)
Definition np_dot (a b : ndarray2) : result ndarray2 :=
  if Nat.eqb (ncols a) (shape0 b) then
    Ok {| ncols := ncols b;
          rows := map (fun ar =>
                    map (fun j =>
                      np_sum (map (fun p => fmul (fst p) (snd p))
                                  (combine ar (column j b))))
                        (seq 0 (ncols b)))
                  (rows a) |}
  else Raise ValueError.

(** [a / a.sum(1)[:, np.newaxis]] *)
Definition normalize_rows (a : ndarray2) : ndarray2 :=
  {| ncols := ncols a;
     rows := map (fun r => map (fun x => fdiv x (np_sum r)) r) (rows a) |}.

Definition map2d (f : float64 -> float64) (a : ndarray2) : ndarray2 :=
  {| ncols := ncols a; rows := map (map f) (rows a) |}.

(** ** The module-level helper *)

(** [complete_ll(dt_matrix)] reads [dt_temp], a variable of the enclosing
    scope, in its second summand; it is the first argument here. *)
Definition complete_ll (dt_temp : ndarray2) (dt_matrix : ndarray2)
  : result float64 :=
  m <- np_max1 dt_matrix ;;
  let dt_tempZ :=
    {| ncols := ncols dt_matrix;
       rows := map (fun p => map (fun x => fsub x (snd p)) (fst p))
                   (combine (rows dt_matrix) m) |} in
  m' <- np_max1 dt_temp ;;
  Ok (fadd (np_sum (map flog (np_sum1 (map2d fexp dt_tempZ)))) (np_sum m')).

(** ** The class [EM_algo] *)

(** An optional argument: [None], a Python list, or a [numpy] array. *)
Inductive pyarg (L A : Type) : Type :=
| PyNone
| PyList (l : L)
| PyArray (a : A).

Arguments PyNone {L A}.
Arguments PyList {L A} l.
Arguments PyArray {L A} a.

(** Truth value of [a == None] for an array [a] of [size] elements, taken as
    the condition of an [if]: the comparison is elementwise and gives an
    array of [False]; an array of more than one element has no truth value. *)
Definition array_eq_None (size : nat) : result bool :=
  match size with
  | 0%nat | 1%nat => Ok false
  | _ => Raise ValueError
  end.

Definition size2 (a : ndarray2) : nat := (shape0 a * ncols a)%nat.

(** [np.full(K, 1/float(K))]: the division is Python's and raises on zero. *)
Definition uniform_rhos (K : nat) : result (list float64) :=
  match K with
  | O => Raise ZeroDivisionError
  | _ => Ok (repeat (Fin (1 / INR K)) K)
  end.

Record EM_algo : Type := mk_EM_algo {
  D : nat;
  V : nat;
  K : nat;
  data : ndarray2;
  rhos : list float64;
  betas : list (list float64);
  ll_history : list float64;
  ll : option float64;
  zs : option ndarray2
}.

(** [__init__]; [draw] is the outcome of
    [np.random.dirichlet(self.V*[1], self.K)], read only when no prior for
    [betas] is given. *)
Definition __init__ (data0 : ndarray2) (K0 : nat)
    (prior_rhos : pyarg (list float64) (list float64))
    (prior_betas : pyarg (list (list float64)) ndarray2)
    (draw : result (list (list float64))) : result EM_algo :=
  rhos0 <- match prior_rhos with
           | PyNone => uniform_rhos K0
           | PyList l => Ok l
           | PyArray a => b <- array_eq_None (length a) ;;
                          if b then uniform_rhos K0 else Ok a
           end ;;
  betas0 <- match prior_betas with
            | PyNone => draw
            | PyList l => Ok l
            | PyArray a => b <- array_eq_None (size2 a) ;;
                           if b then draw else Ok (rows a)
            end ;;
  Ok {| D := shape0 data0; V := shape1 data0; K := K0; data := data0;
        rhos := rhos0; betas := betas0;
        ll_history := []; ll := None; zs := None |}.

(** The entry [dt_temp[doc,topic]] of [E_step]. *)
Definition dt_entry (self : EM_algo) (doc topic : nat) : result float64 :=
  rho <- index (rhos self) topic ;;
  x <- index (rows (data self)) doc ;;
  beta <- index (betas self) topic ;;
  prod <- np_mul x (map flog beta) ;;
  Ok (fadd (flog rho) (np_sum prod)).

(** The local array [dt_temp] of [E_step] once its two loops have run. *)
Definition dt_temp_of (self : EM_algo) : result ndarray2 :=
  dt_rows <- mapM (fun doc => mapM (dt_entry self doc) (seq 0 (K self)))
                  (seq 0 (D self)) ;;
  Ok {| ncols := K self; rows := dt_rows |}.

(** [E_step]: the nested [complete_ll] closes over the local [dt_temp] and is
    called on it. *)
Definition E_step (self : EM_algo) : result EM_algo :=
  dt_temp <- dt_temp_of self ;;
  ll0 <- complete_ll dt_temp dt_temp ;;
  Ok {| D := D self; V := V self; K := K self; data := data self;
        rhos := rhos self; betas := betas self;
        ll_history := ll_history self ++ [ll0];
        ll := Some ll0;
        zs := Some (normalize_rows (map2d fexp dt_temp)) |}.

Definition M_step (self : EM_algo) : result EM_algo :=
  match zs self with
  | None => Raise AttributeError
  | Some z =>
      let rhos' := map (fun s => fdiv s (Fin (INR (D self)))) (np_sum0 z) in
      betas_temp <- np_dot (transpose z) (data self) ;;
      Ok {| D := D self; V := V self; K := K self; data := data self;
            rhos := rhos';
            betas := rows (normalize_rows betas_temp);
            ll_history := ll_history self;
            ll := ll self;
            zs := zs self |}
  end.

Definition msg_tolerance : string := "Arrived at target tolerance!".
Definition msg_max_iter : string := "Exceeded max_iterations!".

(** [self.ll_history[-2]] *)
Definition index_m2 (l : list float64) : result float64 :=
  index (rev l) 1.

(** The [while True] loop of [iterate], from the value [count] of its counter;
    [fuel] bounds the number of passes and [None] means it was used up.  The
    result carries what was printed. *)
Fixpoint iterate_loop (fuel : nat) (tolerance : float64) (max_iter : Z)
    (count : Z) (self : EM_algo) : option (result (EM_algo * list string)) :=
  match fuel with
  | O => None
  | S fuel' =>
      match E_step self with
      | Raise e => Some (Raise e)
      | Ok s1 =>
          match M_step s1 with
          | Raise e => Some (Raise e)
          | Ok s2 =>
              if Nat.eqb (length (ll_history s2)) 1 then
                iterate_loop fuel' tolerance max_iter count s2
              else
                match ll s2, index_m2 (ll_history s2) with
                | None, _ => Some (Raise AttributeError)
                | Some _, Raise e => Some (Raise e)
                | Some l, Ok prev =>
                    if flt (fsub l prev) tolerance then
                      Some (Ok (s2, [msg_tolerance]))
                    else if Z.ltb max_iter count then
                      Some (Ok (s2, [msg_max_iter]))
                    else
                      iterate_loop fuel' tolerance max_iter (count + 1) s2
                end
          end
      end
  end.

Definition iterate (fuel : nat) (tolerance : float64) (max_iter : Z)
    (self : EM_algo) : option (result (EM_algo * list string)) :=
  iterate_loop fuel tolerance max_iter 0 self.

(** ** Real-valued quantities of the specification *)

Definition Rsum (l : list R) : R := fold_right Rplus 0 l.

(** [big n f] is the sum of [f i] over [i < n]. *)
Definition big (n : nat) (f : nat -> R) : R := Rsum (map f (seq 0 n)).

(** [bigmax n f] is the largest [f i] over [i < n], for [n >= 1]. *)
Definition bigmax (n : nat) (f : nat -> R) : R :=
  fold_left Rmax (map f (seq 1 (n - 1))) (f 0%nat).

(** Entry [M[i,j]] of a real matrix given by its rows. *)
Definition ent (M : list (list R)) (i j : nat) : R := nth j (nth i M []) 0.

(** The array of a real matrix with [n] columns. *)
Definition lift2 (n : nat) (M : list (list R)) : ndarray2 :=
  {| ncols := n; rows := map (map Fin) M |}.

(** The [nD] x [nK] array with the finite entries [f d k]. *)
Definition fin_array (nD nK : nat) (f : nat -> nat -> R) : ndarray2 :=
  {| ncols := nK;
     rows := map (fun d => map (fun k => Fin (f d k)) (seq 0 nK)) (seq 0 nD) |}.

(** The log-weight of the specification:
    [L[d,k] = log(rho[k]) + sum_v X[d,v] * log(beta[k,v])]. *)
Definition log_weight_spec (X : list (list R)) (rho : list R)
    (beta : list (list R)) (nV : nat) (d k : nat) : R :=
  ln (nth k rho 0) + big nV (fun v => ent X d v * ln (ent beta k v)).

(** The sum of the exponentials of a row, shifted by its maximum. *)
Definition shifted_exp_sum (nK : nat) (f : nat -> R) : R :=
  big nK (fun k => exp (f k - bigmax nK f)).

(** The log-sum-exp of the specification over a [nD] x [nK] matrix [L]:
    [sum_d (B_d + log (sum_k exp (L[d,k] - B_d)))], [B_d = max_k L[d,k]]. *)
Definition log_sum_exp_spec (nD nK : nat) (L : nat -> nat -> R) : R :=
  big nD (fun d =>
    bigmax nK (L d) + ln (big nK (fun k => exp (L d k - bigmax nK (L d))))).

(** A state whose arrays hold the real matrices [X] ([nV] columns), [rho] and
    [beta]. *)
Definition real_state (X : list (list R)) (nV nK : nat) (rho : list R)
    (beta : list (list R)) (hist : list float64) (l : option float64)
    (z : option ndarray2) : EM_algo :=
  {| D := length X; V := nV; K := nK; data := lift2 nV X;
     rhos := map Fin rho; betas := map (map Fin) beta;
     ll_history := hist; ll := l; zs := z |}.

Definition positive (l : list R) : Prop := Forall (fun r => 0 < r) l.

Definition has_shape (M : list (list R)) (n m : nat) : Prop :=
  length M = n /\ Forall (fun r => length r = m) M.

(** The prevalence of the specification after an M-step:
    [rho_k = (sum_d Z[d,k]) / D]. *)
Definition rho_new_spec (Z : list (list R)) (nD : nat) (k : nat) : R :=
  big nD (fun d => ent Z d k) / INR nD.

(** The unnormalised emissions [sum_d Z[d,k] * X[d,v]]. *)
Definition raw_beta_spec (Z X : list (list R)) (nD : nat) (k v : nat) : R :=
  big nD (fun d => ent Z d k * ent X d v).

(** The responsibility-weighted total of topic [k]:
    [sum_d Z[d,k] * sum_v X[d,v]]. *)
Definition topic_total_spec (Z X : list (list R)) (nD nV : nat) (k : nat) : R :=
  big nD (fun d => ent Z d k * big nV (fun v => ent X d v)).

(** The real matrix with entries [f i j], [i < n], [j < m]. *)
Definition mat (n m : nat) (f : nat -> nat -> R) : list (list R) :=
  map (fun i => map (fun j => f i j) (seq 0 m)) (seq 0 n).

(** The responsibilities of the specification:
    [Z[d,k] = exp (L[d,k]) / sum_j exp (L[d,j])]. *)
Definition resp_spec (nK : nat) (L : nat -> nat -> R) (d k : nat) : R :=
  exp (L d k) / big nK (fun j => exp (L d j)).

(** One E-step followed by one M-step on real parameters: the
    responsibilities, the new prevalences and the new emissions. *)
Definition em_resp (X : list (list R)) (nV nK : nat) (rho : list R)
    (beta : list (list R)) : list (list R) :=
  mat (length X) nK (resp_spec nK (log_weight_spec X rho beta nV)).

Definition em_rho (X : list (list R)) (nV nK : nat) (rho : list R)
    (beta : list (list R)) : list R :=
  map (rho_new_spec (em_resp X nV nK rho beta) (length X)) (seq 0 nK).

Definition em_beta (X : list (list R)) (nV nK : nat) (rho : list R)
    (beta : list (list R)) : list (list R) :=
  mat nK nV (fun k v =>
    raw_beta_spec (em_resp X nV nK rho beta) X (length X) k v /
    big nV (raw_beta_spec (em_resp X nV nK rho beta) X (length X) k)).

(** The corpus log-likelihood of real parameters. *)
Definition em_ll (X : list (list R)) (nV nK : nat) (rho : list R)
    (beta : list (list R)) : R :=
  log_sum_exp_spec (length X) nK (log_weight_spec X rho beta nV).

(** ** Predicates and states used in the statements *)

(** A finite value or minus infinity. *)
Definition fin_or_ninf (x : float64) : Prop := is_finite x \/ x = NInf.

(** A state with a zero in [betas]: one document with counts [[1, 0]], two
    topics of prevalence 1/2, emissions [[1, 0]] and [[1/2, 1/2]]. *)
Definition zero_beta_state : EM_algo :=
  {| D := 1; V := 2; K := 2;
     data := {| ncols := 2; rows := [[Fin 1; Fin 0]] |};
     rhos := [Fin (1/2); Fin (1/2)];
     betas := [[Fin 1; Fin 0]; [Fin (1/2); Fin (1/2)]];
     ll_history := []; ll := None; zs := None |}.


(** A state after an E-step on one empty document: counts [[0]],
    responsibilities [[1]]. *)
Definition empty_doc_state : EM_algo :=
  {| D := 1; V := 1; K := 1;
     data := lift2 1 [[0]];
     rhos := [Fin 1]; betas := [[Fin 1]];
     ll_history := [Fin 0]; ll := Some (Fin 0);
     zs := Some (lift2 1 [[1]]) |}.

(** A state whose second topic has no responsibility: one document with
    counts [[1]], responsibilities [[1, 0]]. *)
Definition idle_topic_state : EM_algo :=
  {| D := 1; V := 1; K := 2;
     data := lift2 1 [[1]];
     rhos := [Fin 1; Fin 0]; betas := [[Fin 1]; [Fin 1]];
     ll_history := [Fin 0]; ll := Some (Fin 0);
     zs := Some (lift2 2 [[1; 0]]) |}.

(** A state whose only topic has prevalence zero: every log-weight is minus
    infinity. *)
Definition zero_rho_state : EM_algo :=
  {| D := 1; V := 1; K := 1;
     data := lift2 1 [[1]];
     rhos := [Fin 0]; betas := [[Fin 1]];
     ll_history := []; ll := None; zs := None |}.

Definition nonneg (l : list R) : Prop := Forall (fun r => 0 <= r) l.

(** The instance built by [EM_algo(data, K=1)] on the single document
    [[1.]]: with one topic and one word, the prevalence is [[1.]] and the
    Dirichlet draw can only be [[1.]]. *)
Definition one_word_instance : result EM_algo :=
  __init__ (lift2 1 [[1]]) 1 PyNone PyNone (Ok [[Fin 1]]).

(** The instance built on the same document from the list priors
    [rho = [2.]] and [beta = [[1.]]]. *)
Definition heavy_prior_instance : result EM_algo :=
  __init__ (lift2 1 [[1]]) 1 (PyList [Fin 2]) (PyList [[Fin 1]])
           (Raise ValueError).

(** Parameters: positive prevalences of sum 1 and, for each topic, positive
    emissions of sum 1. *)
Definition valid_params (nV nK : nat) (rho : list R) (beta : list (list R))
  : Prop :=
  length rho = nK /\
  has_shape beta nK nV /\
  positive rho /\
  Forall positive beta /\
  Rsum rho = 1 /\
  Forall (fun r => Rsum r = 1) beta.

(** Consecutive entries are finite and differ by at least [slack]. *)
Definition increments_at_least (slack : R) (l : list float64) : Prop :=
  forall i a b,
    nth_error l i = Some a -> nth_error l (S i) = Some b ->
    exists x y, a = Fin x /\ b = Fin y /\ slack <= y - x.

(** A valid instance whose second word is in no document: counts
    [[1, 0]], one topic, emissions [[1/2, 1/2]]. *)
Definition absent_word_state : EM_algo :=
  real_state [[1; 0]] 2 1 [1] [[1/2; 1/2]] [] None None.

(** The state the fit on [absent_word_state] reaches after its second pass:
    every parameter is a NaN. *)
Definition nan_state (hist : list float64) : EM_algo :=
  {| D := 1; V := 2; K := 1;
     data := lift2 2 [[1; 0]];
     rhos := [NaN]; betas := [[NaN; NaN]];
     ll_history := hist; ll := Some NaN;
     zs := Some {| ncols := 1; rows := [[NaN]] |} |}.

(** ** Shapes, the notebook's data and its last cell *)

(** An instance whose arrays have the shapes the methods index them with:
    [D] rows of [V] counts, [K >= 1] prevalences and [K] rows of [V]
    emissions.  Nothing is asked of the values. *)
Definition well_shaped (self : EM_algo) : Prop :=
  K self <> 0%nat /\
  D self = shape0 (data self) /\
  ncols (data self) = V self /\
  Forall (fun r => length r = V self) (rows (data self)) /\
  length (rhos self) = K self /\
  length (betas self) = K self /\
  Forall (fun r => length r = V self) (betas self).

(** The number of E-steps a call has run: the growth of the trajectory. *)
Definition passes (before after : EM_algo) : nat :=
  (length (ll_history after) - length (ll_history before))%nat.

(** The counts [feature_counts.values] of the notebook: 3 documents over the
    10 words ball, bonds, business, competition, economics, football, games,
    macro, rugby, stocks. *)
Definition feature_counts : list (list R) :=
  [[1; 0; 0; 1; 0; 1; 1; 0; 1; 0];
   [0; 0; 0; 1; 1; 0; 1; 1; 0; 0];
   [0; 1; 1; 0; 1; 0; 0; 0; 0; 1]].

(** The value of [exp] on a log-weight that is finite or minus infinity. *)
Definition exp_weight (x : float64) : R :=
  match x with
  | Fin a => exp a
  | _ => 0
  end.

(** An instance with other prevalences and emissions. *)
Definition with_params (self : EM_algo) (r : list float64)
    (b : list (list float64)) : EM_algo :=
  {| D := D self; V := V self; K := K self; data := data self;
     rhos := r; betas := b;
     ll_history := ll_history self; ll := ll self; zs := zs self |}.

(** The maximum of a row of log-weights when it is finite. *)
Definition finite_max (r : list float64) : R :=
  match row_max r with
  | Fin m => m
  | _ => 0
  end.

(** * Facts *)

(** ** Signs and finite arithmetic *)

Lemma Rsign_pos r : 0 < r -> Rsign r = Gt.
Proof.
  intros H. unfold Rsign. destruct (Rlt_dec 0 r) as [_ | n]; [reflexivity | lra].
Qed.

Lemma Rsign_neg r : r < 0 -> Rsign r = Lt.
Proof.
  intros H. unfold Rsign.
  destruct (Rlt_dec 0 r) as [p | _]; [lra |].
  destruct (Rlt_dec r 0) as [_ | n]; [reflexivity | lra].
Qed.

Lemma Rsign_0 : Rsign 0 = Eq.
Proof.
  unfold Rsign.
  destruct (Rlt_dec 0 0) as [p | _]; [lra |].
  destruct (Rlt_dec 0 0) as [p | _]; [lra | reflexivity].
Qed.

Lemma Rsign_Eq r : Rsign r = Eq -> r = 0.
Proof.
  unfold Rsign.
  destruct (Rlt_dec 0 r); [discriminate |].
  destruct (Rlt_dec r 0); [discriminate | intros _; lra].
Qed.

Lemma Rsign_nonzero r : r <> 0 -> Rsign r <> Eq.
Proof. intros H E. apply H, Rsign_Eq, E. Qed.

Lemma flog_pos x : 0 < x -> flog (Fin x) = Fin (ln x).
Proof. intros H. simpl. rewrite Rsign_pos by assumption. reflexivity. Qed.

Lemma flog_0 : flog (Fin 0) = NInf.
Proof. simpl. rewrite Rsign_0. reflexivity. Qed.

Lemma fdiv_fin x y : y <> 0 -> fdiv (Fin x) (Fin y) = Fin (x / y).
Proof.
  intros H. simpl. pose proof (Rsign_nonzero y H).
  destruct (Rsign y); congruence.
Qed.

Lemma fdiv_0_0 : fdiv (Fin 0) (Fin 0) = NaN.
Proof. simpl. rewrite Rsign_0. reflexivity. Qed.

Lemma fsub_fin x y : fsub (Fin x) (Fin y) = Fin (x - y).
Proof. reflexivity. Qed.

Lemma fadd_NaN_r a : fadd a NaN = NaN.
Proof. destruct a; reflexivity. Qed.

Lemma fmul_0_NInf : fmul (Fin 0) NInf = NaN.
Proof. simpl. rewrite Rsign_0. reflexivity. Qed.

Lemma flt_fin_true x y : x < y -> flt (Fin x) (Fin y) = true.
Proof. intros H. simpl. destruct (Rlt_dec x y); [reflexivity | lra]. Qed.

Lemma flt_fin_false x y : y <= x -> flt (Fin x) (Fin y) = false.
Proof. intros H. simpl. destruct (Rlt_dec x y); [lra | reflexivity]. Qed.

(** ** Sums *)

Lemma np_sum_fin l : np_sum (map Fin l) = Fin (Rsum l).
Proof.
  induction l as [| x l IH]; [reflexivity |].
  change (np_sum (map Fin (x :: l))) with (fadd (Fin x) (np_sum (map Fin l))).
  rewrite IH. reflexivity.
Qed.

Lemma np_sum_NaN l : In NaN l -> np_sum l = NaN.
Proof.
  induction l as [| x l IH]; [simpl; tauto |].
  change (np_sum (x :: l)) with (fadd x (np_sum l)).
  intros [-> | H]; [reflexivity |].
  rewrite IH by assumption. apply fadd_NaN_r.
Qed.

Lemma Rsum_app l1 l2 : Rsum (l1 ++ l2) = Rsum l1 + Rsum l2.
Proof. induction l1 as [| x l1 IH]; simpl; [lra | rewrite IH; lra]. Qed.

Lemma Rsum_map_ext {A} (f g : A -> R) l :
  (forall a, In a l -> f a = g a) -> Rsum (map f l) = Rsum (map g l).
Proof.
  intros H. f_equal. apply map_ext_in, H.
Qed.

Lemma Rsum_map_plus {A} (f g : A -> R) l :
  Rsum (map (fun a => f a + g a) l) = Rsum (map f l) + Rsum (map g l).
Proof. induction l as [| x l IH]; simpl; [lra | rewrite IH; lra]. Qed.

Lemma Rsum_map_scal {A} (c : R) (f : A -> R) l :
  Rsum (map (fun a => c * f a) l) = c * Rsum (map f l).
Proof. induction l as [| x l IH]; simpl; [lra | rewrite IH; lra]. Qed.

Lemma Rsum_map_div {A} (c : R) (f : A -> R) l :
  Rsum (map (fun a => f a / c) l) = Rsum (map f l) / c.
Proof.
  induction l as [| x l IH]; simpl; [unfold Rdiv; lra | rewrite IH].
  unfold Rdiv. lra.
Qed.

Lemma Rsum_map_const {A} (c : R) (l : list A) :
  Rsum (map (fun _ => c) l) = INR (length l) * c.
Proof.
  induction l as [| x l IH]; [simpl; lra |].
  change (length (x :: l)) with (S (length l)). rewrite S_INR.
  simpl. rewrite IH. lra.
Qed.

Lemma Rsum_map_le {A} (f g : A -> R) l :
  (forall a, In a l -> f a <= g a) -> Rsum (map f l) <= Rsum (map g l).
Proof.
  induction l as [| x l IH]; simpl; intros H; [lra |].
  pose proof (H x (or_introl eq_refl)).
  assert (Rsum (map f l) <= Rsum (map g l)) by (apply IH; intros; apply H; tauto).
  lra.
Qed.

Lemma Rsum_nonneg l : Forall (fun r => 0 <= r) l -> 0 <= Rsum l.
Proof.
  induction 1 as [| x l Hx _ IH]; simpl; lra.
Qed.

Lemma Rsum_pos l : l <> [] -> positive l -> 0 < Rsum l.
Proof.
  intros Hne H. destruct H as [| x l Hx Hl]; [congruence |].
  simpl. assert (0 <= Rsum l).
  { apply Rsum_nonneg. eapply Forall_impl; [| exact Hl]. simpl. intros; lra. }
  lra.
Qed.

(** Exchange of two finite sums. *)
Lemma Rsum_exchange {A B} (f : A -> B -> R) l1 l2 :
  Rsum (map (fun a => Rsum (map (fun b => f a b) l2)) l1) =
  Rsum (map (fun b => Rsum (map (fun a => f a b) l1)) l2).
Proof.
  induction l1 as [| a l1 IH]; simpl.
  - induction l2 as [| b l2 IH2]; simpl; [reflexivity | rewrite <- IH2; lra].
  - rewrite IH. rewrite <- Rsum_map_plus. reflexivity.
Qed.

Lemma big_ext n f g :
  (forall i, (i < n)%nat -> f i = g i) -> big n f = big n g.
Proof.
  intros H. apply Rsum_map_ext. intros i Hi. apply in_seq in Hi. apply H. lia.
Qed.

Lemma big_plus n f g : big n (fun i => f i + g i) = big n f + big n g.
Proof. apply Rsum_map_plus. Qed.

Lemma big_exchange n m (f : nat -> nat -> R) :
  big n (fun i => big m (fun j => f i j)) = big m (fun j => big n (fun i => f i j)).
Proof. apply Rsum_exchange. Qed.

Lemma big_pos n f : (1 <= n)%nat -> (forall i, (i < n)%nat -> 0 < f i) -> 0 < big n f.
Proof.
  intros Hn H. apply Rsum_pos.
  - destruct n; [lia |]. simpl. discriminate.
  - apply Forall_forall. intros x Hx. apply in_map_iff in Hx.
    destruct Hx as [i [<- Hi]]. apply in_seq in Hi. apply H. lia.
Qed.

Lemma big_S_l n f : big (S n) f = f 0%nat + big n (fun i => f (S i)).
Proof.
  unfold big. simpl. rewrite <- seq_shift, map_map. reflexivity.
Qed.

Lemma big_S_r n f : big (S n) f = big n f + f n.
Proof.
  unfold big. rewrite seq_S, map_app, Rsum_app. simpl. lra.
Qed.

(** A sum over a list read through its indices. *)
Lemma Rsum_nth l : Rsum l = big (length l) (fun i => nth i l 0).
Proof.
  induction l as [| x l IH]; [reflexivity |].
  simpl length. rewrite big_S_l. simpl. rewrite IH. reflexivity.
Qed.

(** ** Lists, lookups and the error type *)

Lemma mapM_ok {A B} (f : A -> result B) (g : A -> B) l :
  (forall a, In a l -> f a = Ok (g a)) -> mapM f l = Ok (map g l).
Proof.
  induction l as [| a l IH]; intros H; [reflexivity |].
  simpl. rewrite (H a) by (left; reflexivity). simpl.
  rewrite IH by (intros; apply H; right; assumption). reflexivity.
Qed.

Lemma mapM_length {A B} (f : A -> result B) l bs :
  mapM f l = Ok bs -> length bs = length l.
Proof.
  revert bs. induction l as [| a l IH]; simpl; intros bs H.
  - injection H as <-. reflexivity.
  - destruct (f a); [| discriminate]. simpl in H.
    destruct (mapM f l) as [bs' |]; [| discriminate]. simpl in H.
    injection H as <-. simpl. f_equal. apply IH. reflexivity.
Qed.

Lemma index_lt {A} (l : list A) i d :
  (i < length l)%nat -> index l i = Ok (nth i l d).
Proof.
  intros H. unfold index. rewrite (nth_error_nth' l d H). reflexivity.
Qed.

Lemma index_map_fin l i :
  (i < length l)%nat -> index (map Fin l) i = Ok (Fin (nth i l 0)).
Proof.
  intros H. rewrite (index_lt _ _ (Fin 0)) by (rewrite length_map; assumption).
  rewrite map_nth. reflexivity.
Qed.

Lemma index_map_map_fin (M : list (list R)) i :
  (i < length M)%nat -> index (map (map Fin) M) i = Ok (map Fin (nth i M [])).
Proof.
  intros H. rewrite (index_lt _ _ (map Fin [])) by (rewrite length_map; assumption).
  rewrite map_nth. reflexivity.
Qed.

Lemma positive_nth l i : positive l -> (i < length l)%nat -> 0 < nth i l 0.
Proof.
  intros H Hi. unfold positive in H. rewrite Forall_forall in H.
  apply H, nth_In, Hi.
Qed.

Lemma has_shape_nth M n m i :
  has_shape M n m -> (i < n)%nat -> length (nth i M []) = m.
Proof.
  intros [Hn Hm] Hi. rewrite Forall_forall in Hm.
  apply Hm, nth_In. lia.
Qed.

Lemma map_flog_fin l : positive l -> map flog (map Fin l) = map Fin (map ln l).
Proof.
  induction 1 as [| x l Hx _ IH]; [reflexivity |].
  cbn [map]. rewrite (flog_pos x Hx), IH. reflexivity.
Qed.

Lemma np_mul_fin x y :
  length x = length y ->
  np_mul (map Fin x) (map Fin y) =
  Ok (map Fin (map (fun p => fst p * snd p) (combine x y))).
Proof.
  intros H. unfold np_mul. rewrite !length_map, H, Nat.eqb_refl. f_equal.
  revert y H. induction x as [| a x IH]; intros [| b y] H; try discriminate;
    [reflexivity |].
  simpl. f_equal. apply IH. simpl in H. lia.
Qed.

Lemma Rsum_combine_nth (g : R -> R) x y n :
  length x = n -> length y = n ->
  Rsum (map (fun p => fst p * snd p) (combine x (map g y))) =
  big n (fun v => nth v x 0 * g (nth v y 0)).
Proof.
  revert y n. induction x as [| a x IH]; intros [| b y] n Hx Hy;
    simpl in Hx, Hy; subst n; try discriminate; [reflexivity |].
  rewrite big_S_l. simpl. f_equal. apply IH; [reflexivity | lia].
Qed.

(** ** The log-weights of [E_step] *)

Section RealState.

Variables (X : list (list R)) (nV nK : nat) (rho : list R)
          (beta : list (list R)).
Variables (hist : list float64) (l0 : option float64) (z0 : option ndarray2).

Hypothesis X_shape : Forall (fun r => length r = nV) X.
Hypothesis rho_shape : length rho = nK.
Hypothesis beta_shape : has_shape beta nK nV.
Hypothesis rho_pos : positive rho.
Hypothesis beta_pos : Forall positive beta.

Let self := real_state X nV nK rho beta hist l0 z0.
Let L := log_weight_spec X rho beta nV.

Lemma dt_entry_real d k :
  (d < length X)%nat -> (k < nK)%nat ->
  dt_entry self d k = Ok (Fin (L d k)).
Proof.
  intros Hd Hk. unfold dt_entry, self, real_state. cbn [rhos data betas rows lift2].
  rewrite index_map_fin by lia. cbn [bind].
  rewrite index_map_map_fin by assumption. cbn [bind].
  rewrite index_map_map_fin by (destruct beta_shape; lia). cbn [bind].
  assert (Hb : positive (nth k beta [])).
  { rewrite Forall_forall in beta_pos. apply beta_pos, nth_In.
    destruct beta_shape; lia. }
  assert (Hlx : length (nth d X []) = nV).
  { rewrite Forall_forall in X_shape. apply X_shape, nth_In, Hd. }
  assert (Hlb : length (nth k beta []) = nV)
    by (eapply has_shape_nth; eauto).
  rewrite map_flog_fin by assumption.
  rewrite np_mul_fin by (rewrite length_map; lia). cbn [bind].
  rewrite np_sum_fin, flog_pos by (apply positive_nth; [assumption | lia]).
  rewrite (Rsum_combine_nth ln _ _ nV) by assumption.
  reflexivity.
Qed.

Lemma dt_temp_of_real :
  dt_temp_of self = Ok (fin_array (length X) nK L).
Proof.
  unfold dt_temp_of.
  rewrite (mapM_ok _ (fun d => map (fun k => Fin (L d k)) (seq 0 nK))).
  - reflexivity.
  - intros d Hd. apply in_seq in Hd. apply mapM_ok.
    intros k Hk. apply in_seq in Hk. apply dt_entry_real; simpl in *; lia.
Qed.

End RealState.

(** ** The likelihood helper on finite arrays *)

Lemma fold_left_fmax_fin l a :
  fold_left fmax (map Fin l) (Fin a) = Fin (fold_left Rmax l a).
Proof.
  revert a. induction l as [| x l IH]; intros a; [reflexivity |].
  simpl. apply IH.
Qed.

Lemma row_max_fin (f : nat -> R) n :
  (1 <= n)%nat -> row_max (map (fun k => Fin (f k)) (seq 0 n)) = Fin (bigmax n f).
Proof.
  intros Hn. destruct n as [| m]; [lia |].
  unfold bigmax. replace (S m - 1)%nat with m by lia.
  simpl seq. cbn [map row_max].
  rewrite <- (map_map f Fin), fold_left_fmax_fin. reflexivity.
Qed.

Lemma np_sum_fin_map {A} (h : A -> R) l :
  np_sum (map (fun i => Fin (h i)) l) = Fin (Rsum (map h l)).
Proof. rewrite <- (map_map h Fin). apply np_sum_fin. Qed.

Lemma combine_map_same {A B C} (F : A -> B) (G : A -> C) l :
  combine (map F l) (map G l) = map (fun a => (F a, G a)) l.
Proof. induction l as [| a l IH]; simpl; [reflexivity | rewrite IH; reflexivity]. Qed.

Lemma np_max1_fin nD nK f :
  (1 <= nK)%nat ->
  np_max1 (fin_array nD nK f) =
  Ok (map (fun d => Fin (bigmax nK (f d))) (seq 0 nD)).
Proof.
  intros Hn. unfold np_max1, fin_array. cbn [ncols rows].
  destruct (Nat.eqb_spec nK 0) as [E | _]; [lia |].
  f_equal. rewrite map_map. apply map_ext. intros d. apply row_max_fin, Hn.
Qed.

Lemma shifted_exp_sum_pos nK f : (1 <= nK)%nat -> 0 < shifted_exp_sum nK f.
Proof. intros H. apply big_pos; [assumption |]. intros. apply exp_pos. Qed.

Lemma complete_ll_fin nD' nK' g nD nK f :
  (1 <= nK)%nat -> (1 <= nK')%nat ->
  complete_ll (fin_array nD' nK' g) (fin_array nD nK f) =
  Ok (Fin (big nD (fun d => ln (shifted_exp_sum nK (f d)))
           + big nD' (fun d => bigmax nK' (g d)))).
Proof.
  intros Hn Hn'. unfold complete_ll.
  rewrite (np_max1_fin nD nK f Hn). cbn [bind].
  rewrite (np_max1_fin nD' nK' g Hn'). cbn [bind].
  f_equal. rewrite np_sum_fin_map. unfold np_sum1, map2d, fin_array.
  cbn [rows ncols]. rewrite combine_map_same. rewrite !map_map. cbn [fst snd].
  rewrite (map_ext _ (fun d => Fin (ln (shifted_exp_sum nK (f d))))).
  - rewrite np_sum_fin_map. reflexivity.
  - intros d. rewrite !map_map.
    rewrite (map_ext _ (fun k => Fin (exp (f d k - bigmax nK (f d)))))
      by (intros k; reflexivity).
    rewrite np_sum_fin_map. apply flog_pos.
    apply (shifted_exp_sum_pos nK (f d) Hn).
Qed.

(** [bigmax] is the maximum: an upper bound that is attained. *)
Lemma fold_left_Rmax_ge l a : a <= fold_left Rmax l a.
Proof.
  revert a. induction l as [| x l IH]; intros a; simpl; [lra |].
  eapply Rle_trans; [apply (Rmax_l a x) | apply IH].
Qed.

Lemma fold_left_Rmax_ub l a x : In x l -> x <= fold_left Rmax l a.
Proof.
  revert a. induction l as [| y l IH]; intros a; simpl; [tauto |].
  intros [-> | H]; [| apply IH, H].
  eapply Rle_trans; [apply (Rmax_r a x) | apply fold_left_Rmax_ge].
Qed.

Lemma fold_left_Rmax_in l a : fold_left Rmax l a = a \/ In (fold_left Rmax l a) l.
Proof.
  revert a. induction l as [| y l IH]; intros a; simpl; [left; reflexivity |].
  destruct (IH (Rmax a y)) as [E | H]; [| right; right; exact H].
  rewrite E. unfold Rmax. destruct (Rle_dec a y); [right; left | left]; reflexivity.
Qed.

Lemma bigmax_ub n f k : (k < n)%nat -> f k <= bigmax n f.
Proof.
  intros Hk. unfold bigmax. destruct k as [| k].
  - apply fold_left_Rmax_ge.
  - apply fold_left_Rmax_ub. apply in_map. apply in_seq. lia.
Qed.

Lemma bigmax_attained n f : (1 <= n)%nat -> exists k, (k < n)%nat /\ bigmax n f = f k.
Proof.
  intros Hn. unfold bigmax.
  destruct (fold_left_Rmax_in (map f (seq 1 (n - 1))) (f 0%nat)) as [E | H].
  - exists 0%nat. split; [lia | exact E].
  - apply in_map_iff in H. destruct H as [k [E Hk]]. apply in_seq in Hk.
    exists k. split; [lia | symmetry; exact E].
Qed.

(** ** [E_step] on positive parameters *)

Lemma E_step_unfold self L :
  dt_temp_of self = Ok L ->
  E_step self =
  (ll0 <- complete_ll L L ;;
   Ok {| D := D self; V := V self; K := K self; data := data self;
         rhos := rhos self; betas := betas self;
         ll_history := ll_history self ++ [ll0];
         ll := Some ll0;
         zs := Some (normalize_rows (map2d fexp L)) |}).
Proof. intros H. unfold E_step. rewrite H. reflexivity. Qed.

Lemma log_sum_exp_split nD nK f :
  big nD (fun d => ln (shifted_exp_sum nK (f d))) + big nD (fun d => bigmax nK (f d))
  = log_sum_exp_spec nD nK f.
Proof.
  unfold log_sum_exp_spec. rewrite <- big_plus. apply big_ext.
  intros d _. unfold shifted_exp_sum. lra.
Qed.

(** C1: on a count matrix [X] and positive parameters [rho] (length K) and
    [beta] (K x V), [E_step] builds the log-weights
    [L[d,k] = log(rho[k]) + sum_v X[d,v] * log(beta[k,v])]; the [np.max] of
    its helper returns, for each document, the maximum [B_d = max_k L[d,k]]
    (an upper bound of the row that one of its entries attains); the corpus
    log-likelihood it computes is
    [sum_d (B_d + log (sum_k exp (L[d,k] - B_d)))], and exactly that value is
    appended at the end of [ll_history]. *)
Theorem E_step_log_likelihood
    (X : list (list R)) (nV nK : nat) (rho : list R) (beta : list (list R))
    (hist : list float64) (l0 : option float64) (z0 : option ndarray2) :
  (1 <= nK)%nat ->
  Forall (fun r => length r = nV) X ->
  length rho = nK ->
  has_shape beta nK nV ->
  positive rho ->
  Forall positive beta ->
  dt_temp_of (real_state X nV nK rho beta hist l0 z0) =
    Ok (fin_array (length X) nK (log_weight_spec X rho beta nV)) /\
  np_max1 (fin_array (length X) nK (log_weight_spec X rho beta nV)) =
    Ok (map (fun d => Fin (bigmax nK (log_weight_spec X rho beta nV d)))
            (seq 0 (length X))) /\
  (forall d k, (k < nK)%nat ->
     log_weight_spec X rho beta nV d k
     <= bigmax nK (log_weight_spec X rho beta nV d)) /\
  (forall d, exists k, (k < nK)%nat /\
     bigmax nK (log_weight_spec X rho beta nV d)
     = log_weight_spec X rho beta nV d k) /\
  exists self',
    E_step (real_state X nV nK rho beta hist l0 z0) = Ok self' /\
    ll self' =
      Some (Fin (log_sum_exp_spec (length X) nK (log_weight_spec X rho beta nV))) /\
    ll_history self' =
      hist ++ [Fin (log_sum_exp_spec (length X) nK (log_weight_spec X rho beta nV))].
Proof.
  intros HK HX Hrho Hbeta Prho Pbeta.
  pose proof (dt_temp_of_real X nV nK rho beta hist l0 z0
                HX Hrho Hbeta Prho Pbeta) as Hdt.
  split; [exact Hdt |].
  split; [apply np_max1_fin, HK |].
  split; [intros d k Hk; apply bigmax_ub, Hk |].
  split; [intros d; apply bigmax_attained, HK |].
  rewrite (E_step_unfold _ _ Hdt).
  rewrite complete_ll_fin by assumption. rewrite log_sum_exp_split.
  cbn [bind]. eexists. split; [reflexivity |]. split; reflexivity.
Qed.

(** [E_step_log_likelihood] on one document [[1.]], one topic, [rho = [1.]]
    and [beta = [[1.]]]. *)
Lemma E_step_log_likelihood_witness :
  dt_temp_of (real_state [[1]] 1 1 [1] [[1]] [] None None) =
    Ok (fin_array (length [[1]]) 1 (log_weight_spec [[1]] [1] [[1]] 1)) /\
  np_max1 (fin_array (length [[1]]) 1 (log_weight_spec [[1]] [1] [[1]] 1)) =
    Ok (map (fun d => Fin (bigmax 1 (log_weight_spec [[1]] [1] [[1]] 1 d)))
            (seq 0 (length [[1]]))) /\
  (forall d k, (k < 1)%nat ->
     log_weight_spec [[1]] [1] [[1]] 1 d k
     <= bigmax 1 (log_weight_spec [[1]] [1] [[1]] 1 d)) /\
  (forall d, exists k, (k < 1)%nat /\
     bigmax 1 (log_weight_spec [[1]] [1] [[1]] 1 d)
     = log_weight_spec [[1]] [1] [[1]] 1 d k) /\
  exists self',
    E_step (real_state [[1]] 1 1 [1] [[1]] [] None None) = Ok self' /\
    ll self' =
      Some (Fin (log_sum_exp_spec (length [[1]]) 1
                   (log_weight_spec [[1]] [1] [[1]] 1))) /\
    ll_history self' =
      [] ++ [Fin (log_sum_exp_spec (length [[1]]) 1
                    (log_weight_spec [[1]] [1] [[1]] 1))].
Proof.
  apply (E_step_log_likelihood [[1]] 1 1 [1] [[1]] [] None None).
  - lia.
  - repeat constructor.
  - reflexivity.
  - split; [reflexivity | repeat constructor].
  - repeat constructor; lra.
  - repeat constructor; lra.
Defined.

(** ** The helper and its enclosing variable *)

Lemma bigmax_1 f : bigmax 1 f = f 0%nat.
Proof. reflexivity. Qed.

Lemma big_1 f : big 1 f = f 0%nat.
Proof. unfold big. simpl. lra. Qed.

(** C9: [complete_ll] is not a function of its argument alone.  With
    [dt_temp = [[0.]]] in the enclosing scope, [complete_ll([[1.]])] returns
    [0.], where the log-sum-exp of [[[1.]]] is [1.]: the second summand is
    taken from [dt_temp], not from the argument. *)
Theorem complete_ll_reads_enclosing_dt_temp :
  complete_ll (fin_array 1 1 (fun _ _ => 0)) (fin_array 1 1 (fun _ _ => 1))
    = Ok (Fin 0) /\
  log_sum_exp_spec 1 1 (fun _ _ => 1) = 1 /\
  complete_ll (fin_array 1 1 (fun _ _ => 1)) (fin_array 1 1 (fun _ _ => 1))
    = Ok (Fin 1).
Proof.
  assert (E : ln (shifted_exp_sum 1 (fun _ => 1)) = 0).
  { unfold shifted_exp_sum. rewrite big_1, bigmax_1, Rminus_diag, exp_0.
    apply ln_1. }
  repeat split.
  - rewrite complete_ll_fin by lia. rewrite !big_1, bigmax_1, E.
    do 2 f_equal. lra.
  - unfold log_sum_exp_spec. rewrite big_1, bigmax_1.
    change (big 1 (fun k : nat => exp (1 - 1))) with (shifted_exp_sum 1 (fun _ => 1)).
    rewrite E. lra.
  - rewrite complete_ll_fin by lia. rewrite !big_1, bigmax_1, E.
    do 2 f_equal. lra.
Qed.

(** ** The responsibilities of [E_step] *)

Lemma complete_ll_returns L : ncols L <> 0%nat -> exists v, complete_ll L L = Ok v.
Proof.
  intros H. unfold complete_ll, np_max1.
  destruct (Nat.eqb_spec (ncols L) 0) as [E | _]; [contradiction |].
  cbn [bind]. eexists. reflexivity.
Qed.

Lemma dt_temp_of_ncols self L : dt_temp_of self = Ok L -> ncols L = K self.
Proof.
  unfold dt_temp_of. intros H.
  destruct (mapM _ (seq 0 (D self))) as [rs |]; [| discriminate].
  simpl in H. injection H as <-. reflexivity.
Qed.

Lemma dt_temp_of_shape0 self L : dt_temp_of self = Ok L -> shape0 L = D self.
Proof.
  unfold dt_temp_of. intros H.
  destruct (mapM _ (seq 0 (D self))) as [rs |] eqn:E; [| discriminate].
  simpl in H. injection H as <-. unfold shape0. cbn [rows].
  rewrite (mapM_length _ _ _ E). apply length_seq.
Qed.

Lemma zero_beta_dt_temp :
  dt_temp_of zero_beta_state =
  Ok {| ncols := 2;
        rows := [[NaN; Fin (ln (1/2) + (1 * ln (1/2) + (0 * ln (1/2) + 0)))]] |}.
Proof.
  unfold dt_temp_of, zero_beta_state, dt_entry. cbn [D K seq mapM rhos betas data rows].
  cbn [index nth_error bind map].
  rewrite flog_0, !flog_pos by lra.
  unfold np_mul. cbn [length Nat.eqb combine map fst snd].
  rewrite fmul_0_NInf. cbn [bind]. reflexivity.
Qed.

(** C3: the claim is that the rows of the responsibilities sum to 1 after
    every [E_step] in which each row of the log-weights has a finite entry.
    On one document with counts [[1, 0]], prevalences [[1/2, 1/2]] and
    emissions [[1, 0]] and [[1/2, 1/2]], the first topic's log-weight is
    [log (1/2) + (1 * log 1 + 0 * log 0)], a NaN, and the second one is
    finite.  [E_step] returns, and the document's row of responsibilities is
    [[NaN, NaN]]: its sum is not 1. *)
Theorem E_step_NaN_row_beside_finite_log_weight :
  dt_temp_of zero_beta_state =
    Ok {| ncols := 2;
          rows := [[NaN; Fin (ln (1/2) + (1 * ln (1/2) + (0 * ln (1/2) + 0)))]] |} /\
  (forall r,
     In r [[NaN; Fin (ln (1/2) + (1 * ln (1/2) + (0 * ln (1/2) + 0)))]] ->
     Exists is_finite r) /\
  exists self',
    E_step zero_beta_state = Ok self' /\
    zs self' = Some {| ncols := 2; rows := [[NaN; NaN]] |} /\
    np_sum [NaN; NaN] = NaN /\
    ~ (forall z r, zs self' = Some z -> In r (rows z) -> np_sum r = Fin 1).
Proof.
  split; [exact zero_beta_dt_temp |]. split.
  { intros r [<- | []]. apply Exists_cons_tl, Exists_cons_hd. exact I. }
  destruct (complete_ll_returns
              {| ncols := 2;
                 rows := [[NaN; Fin (ln (1/2) + (1 * ln (1/2) + (0 * ln (1/2) + 0)))]] |})
    as [v Hv]; [simpl; lia |].
  eexists. split.
  - rewrite (E_step_unfold _ _ zero_beta_dt_temp), Hv. cbn [bind]. reflexivity.
  - cbn [zs]. split; [reflexivity |]. split; [reflexivity |].
    intros H.
    specialize (H _ [NaN; NaN] eq_refl (or_introl eq_refl)).
    discriminate H.
Qed.

(** ** [M_step] on real responsibilities *)

Lemma map_seq_nth {A B} (g : A -> B) (l : list A) (d : A) :
  map g l = map (fun i => g (nth i l d)) (seq 0 (length l)).
Proof.
  induction l as [| a l IH]; [reflexivity |].
  simpl. f_equal. rewrite <- seq_shift, map_map. exact IH.
Qed.

Lemma nth_map_fin r j : (j < length r)%nat -> nth j (map Fin r) NaN = Fin (nth j r 0).
Proof.
  intros H. rewrite (nth_indep _ NaN (Fin 0)) by (rewrite length_map; assumption).
  apply map_nth.
Qed.

Lemma column_lift2 M n m j :
  has_shape M n m -> (j < m)%nat ->
  column j (lift2 m M) = map (fun d => Fin (ent M d j)) (seq 0 n).
Proof.
  intros HM Hj. unfold column, lift2. cbn [rows]. rewrite map_map.
  rewrite (map_seq_nth _ M []). destruct HM as [Hn Hm]. rewrite Hn.
  apply map_ext_in. intros d Hd. apply in_seq in Hd.
  apply nth_map_fin. rewrite Forall_forall in Hm.
  rewrite (Hm (nth d M [])) by (apply nth_In; lia). exact Hj.
Qed.

Lemma big_div n f c : big n (fun i => f i / c) = big n f / c.
Proof. apply Rsum_map_div. Qed.

Lemma big_scal n f c : big n (fun i => c * f i) = c * big n f.
Proof. apply Rsum_map_scal. Qed.

Lemma big_const n c : big n (fun _ => c) = INR n * c.
Proof. unfold big. rewrite Rsum_map_const, length_seq. reflexivity. Qed.

Section MStep.

Variables (X Z : list (list R)) (nD nV nK : nat) (self : EM_algo).

Hypothesis X_shape : has_shape X nD nV.
Hypothesis Z_shape : has_shape Z nD nK.
Hypothesis self_D : D self = nD.
Hypothesis self_data : data self = lift2 nV X.
Hypothesis self_zs : zs self = Some (lift2 nK Z).

Let rho' := rho_new_spec Z nD.
Let raw := raw_beta_spec Z X nD.

Lemma np_sum0_lift2 :
  np_sum0 (lift2 nK Z) = map (fun k => Fin (big nD (fun d => ent Z d k))) (seq 0 nK).
Proof.
  unfold np_sum0. cbn [ncols lift2]. apply map_ext_in.
  intros k Hk. apply in_seq in Hk.
  rewrite (column_lift2 Z nD nK k Z_shape) by lia.
  apply np_sum_fin_map.
Qed.

Lemma np_dot_lift2 :
  np_dot (transpose (lift2 nK Z)) (lift2 nV X) = Ok (fin_array nK nV raw).
Proof.
  unfold np_dot, transpose, shape0. cbn [ncols rows lift2].
  rewrite !length_map. destruct X_shape as [HX _], Z_shape as [HZ _].
  rewrite HX, HZ, Nat.eqb_refl. unfold fin_array. do 2 f_equal.
  rewrite map_map. apply map_ext_in. intros k Hk. apply in_seq in Hk.
  apply map_ext_in. intros v Hv. apply in_seq in Hv.
  change {| ncols := nK; rows := map (map Fin) Z |} with (lift2 nK Z).
  change {| ncols := nV; rows := map (map Fin) X |} with (lift2 nV X).
  rewrite (column_lift2 Z nD nK k Z_shape) by lia.
  rewrite (column_lift2 X nD nV v X_shape) by lia.
  rewrite combine_map_same, map_map. cbn [fst snd fmul].
  apply np_sum_fin_map.
Qed.

Lemma M_step_real :
  (1 <= nD)%nat ->
  M_step self =
  Ok {| D := D self; V := V self; K := K self; data := data self;
        rhos := map (fun k => Fin (rho' k)) (seq 0 nK);
        betas := rows (normalize_rows (fin_array nK nV raw));
        ll_history := ll_history self; ll := ll self; zs := zs self |}.
Proof.
  intros HD. unfold M_step. rewrite self_zs, self_data, np_dot_lift2.
  cbn [bind]. rewrite np_sum0_lift2, map_map, self_D. do 2 f_equal.
  apply map_ext. intros k. apply fdiv_fin.
  apply not_0_INR. lia.
Qed.

End MStep.

Lemma raw_total (X Z : list (list R)) nD nV k :
  big nV (raw_beta_spec Z X nD k) = topic_total_spec Z X nD nV k.
Proof.
  unfold raw_beta_spec, topic_total_spec. rewrite big_exchange.
  apply big_ext. intros d _. apply big_scal.
Qed.

Lemma rho_new_sum (Z : list (list R)) nD nK :
  (1 <= nD)%nat ->
  (forall d, (d < nD)%nat -> big nK (fun k => ent Z d k) = 1) ->
  big nK (rho_new_spec Z nD) = 1.
Proof.
  intros HD Hrow. unfold rho_new_spec. rewrite big_div, big_exchange.
  rewrite (big_ext nD _ (fun _ => 1)) by exact Hrow.
  rewrite big_const. field. apply not_0_INR. lia.
Qed.

Lemma normalized_raw_row (raw : nat -> R) nV :
  big nV raw <> 0 ->
  map (fun x => fdiv x (np_sum (map (fun v => Fin (raw v)) (seq 0 nV))))
      (map (fun v => Fin (raw v)) (seq 0 nV)) =
  map (fun v => Fin (raw v / big nV raw)) (seq 0 nV).
Proof.
  intros H. rewrite np_sum_fin_map, map_map. apply map_ext.
  intros v. apply fdiv_fin, H.
Qed.

Lemma map_const_seq {A} (a : A) n s : map (fun _ => a) (seq s n) = repeat a n.
Proof.
  revert s. induction n as [| n IH]; intros s; [reflexivity |].
  simpl. f_equal. apply IH.
Qed.

Lemma normalized_raw_row_zero (raw : nat -> R) nV :
  (forall v, (v < nV)%nat -> raw v = 0) ->
  map (fun x => fdiv x (np_sum (map (fun v => Fin (raw v)) (seq 0 nV))))
      (map (fun v => Fin (raw v)) (seq 0 nV)) =
  repeat NaN nV.
Proof.
  intros H. rewrite np_sum_fin_map, map_map.
  assert (E : Rsum (map raw (seq 0 nV)) = 0).
  { change (big nV raw = 0). rewrite (big_ext nV _ (fun _ => 0)) by exact H.
    rewrite big_const. lra. }
  rewrite E. rewrite <- (map_const_seq NaN nV 0).
  apply map_ext_in. intros v Hv. apply in_seq in Hv.
  rewrite H by lia. apply fdiv_0_0.
Qed.

(** ** The simplex invariants after [M_step] *)

Lemma betas_of_fin_array nK nV raw :
  rows (normalize_rows (fin_array nK nV raw)) =
  map (fun k =>
         map (fun x => fdiv x (np_sum (map (fun v => Fin (raw k v)) (seq 0 nV))))
             (map (fun v => Fin (raw k v)) (seq 0 nV)))
      (seq 0 nK).
Proof. unfold normalize_rows, fin_array. cbn [rows]. apply map_map. Qed.

(** C2, amended: for [D >= 1], responsibilities whose rows sum to 1 and
    topics whose weighted totals [sum_d Z[d,k] * sum_v X[d,v]] are all
    non-zero, [M_step] returns a state with
    [rho[k] = (sum_d Z[d,k]) / D], [sum_k rho[k] = 1], and [K] rows of
    [beta], each of length [V] and of sum 1. *)
Theorem M_step_simplex
    (X Z : list (list R)) (nD nV nK : nat) (self : EM_algo) :
  (1 <= nD)%nat ->
  has_shape X nD nV ->
  has_shape Z nD nK ->
  D self = nD ->
  data self = lift2 nV X ->
  zs self = Some (lift2 nK Z) ->
  (forall d, (d < nD)%nat -> big nK (fun k => ent Z d k) = 1) ->
  (forall k, (k < nK)%nat -> topic_total_spec Z X nD nV k <> 0) ->
  exists self',
    M_step self = Ok self' /\
    rhos self' = map (fun k => Fin (rho_new_spec Z nD k)) (seq 0 nK) /\
    np_sum (rhos self') = Fin 1 /\
    length (betas self') = nK /\
    forall b, In b (betas self') -> length b = nV /\ np_sum b = Fin 1.
Proof.
  intros HD HX HZ HsD Hdata Hzs Hrow Htot.
  rewrite (M_step_real X Z nD nV nK self HX HZ HsD Hdata Hzs HD).
  eexists. split; [reflexivity |]. cbn [rhos betas].
  split; [reflexivity |]. split; [| split].
  - rewrite np_sum_fin_map. f_equal.
    apply (rho_new_sum Z nD nK HD Hrow).
  - rewrite betas_of_fin_array, length_map, length_seq. reflexivity.
  - intros b Hb. rewrite betas_of_fin_array in Hb. apply in_map_iff in Hb.
    destruct Hb as [k [<- Hk]]. apply in_seq in Hk.
    assert (Hne : big nV (raw_beta_spec Z X nD k) <> 0).
    { rewrite raw_total. apply Htot. lia. }
    rewrite (normalized_raw_row (raw_beta_spec Z X nD k)) by exact Hne.
    split; [rewrite length_map, length_seq; reflexivity |].
    rewrite np_sum_fin_map. f_equal.
    change (big nV (fun v => raw_beta_spec Z X nD k v / big nV (raw_beta_spec Z X nD k)) = 1).
    rewrite big_div. field. exact Hne.
Qed.

(** [M_step_simplex] on counts [[1.]] and responsibilities [[1.]]. *)
Lemma M_step_simplex_witness :
  exists self',
    M_step (real_state [[1]] 1 1 [1] [[1]] [Fin 0] (Some (Fin 0))
              (Some (lift2 1 [[1]]))) = Ok self' /\
    rhos self' = map (fun k => Fin (rho_new_spec [[1]] 1 k)) (seq 0 1) /\
    np_sum (rhos self') = Fin 1 /\
    length (betas self') = 1%nat /\
    forall b, In b (betas self') -> length b = 1%nat /\ np_sum b = Fin 1.
Proof.
  apply (M_step_simplex [[1]] [[1]] 1 1 1).
  - lia.
  - split; [reflexivity | repeat constructor].
  - split; [reflexivity | repeat constructor].
  - reflexivity.
  - reflexivity.
  - reflexivity.
  - intros d Hd. rewrite big_1. destruct d; [reflexivity | lia].
  - intros k Hk. unfold topic_total_spec. rewrite !big_1.
    destruct k; [cbn [ent nth]; apply Rgt_not_eq; lra | lia].
Defined.

Lemma M_step_empty_doc :
  M_step empty_doc_state =
  Ok {| D := 1; V := 1; K := 1; data := lift2 1 [[0]];
        rhos := [Fin (rho_new_spec [[1]] 1 0)]; betas := [[NaN]];
        ll_history := [Fin 0]; ll := Some (Fin 0);
        zs := Some (lift2 1 [[1]]) |}.
Proof.
  rewrite (M_step_real [[0]] [[1]] 1 1 1);
    try reflexivity; try lia; try (split; [reflexivity | repeat constructor]).
  rewrite betas_of_fin_array.
  rewrite (map_ext_in _ (fun _ => repeat NaN 1)); [reflexivity |].
  intros k Hk. apply in_seq in Hk.
  apply (normalized_raw_row_zero (raw_beta_spec [[1]] [[0]] 1 k)).
  intros v Hv. unfold raw_beta_spec. rewrite big_1.
  destruct k; [| lia]. destruct v; [| lia]. cbn [ent nth]. lra.
Qed.

(** C2 as stated fails: with one document of no word (counts [[0]]) and
    responsibilities [[1]], whose row sums to 1, [M_step] returns the
    emission row [[NaN]], whose sum is not 1. *)
Theorem M_step_empty_document_not_simplex :
  (1 <= D empty_doc_state)%nat /\
  (forall z, zs empty_doc_state = Some z ->
             forall r, In r (rows z) -> np_sum r = Fin 1) /\
  exists self',
    M_step empty_doc_state = Ok self' /\
    betas self' = [[NaN]] /\
    ~ (forall b, In b (betas self') -> np_sum b = Fin 1).
Proof.
  split; [simpl; lia |]. split.
  - intros z Hz. injection Hz as <-. intros r [<- | []].
    change (np_sum (map Fin [1]) = Fin 1). rewrite np_sum_fin. f_equal. simpl. lra.
  - eexists. split; [apply M_step_empty_doc |]. split; [reflexivity |].
    intros H. specialize (H [NaN] (or_introl eq_refl)). discriminate.
Qed.

(** ** Degenerate steps *)

Lemma combine_map_r {A B} (f : A -> B) l :
  combine l (map f l) = map (fun a => (a, f a)) l.
Proof. induction l as [| a l IH]; simpl; [reflexivity | rewrite IH; reflexivity]. Qed.

Lemma complete_ll_unfold L :
  ncols L <> 0%nat ->
  complete_ll L L =
  Ok (fadd
        (np_sum (map (fun r =>
                   flog (np_sum (map fexp (map (fun x => fsub x (row_max r)) r))))
                 (rows L)))
        (np_sum (map row_max (rows L)))).
Proof.
  intros H. unfold complete_ll, np_max1.
  destruct (Nat.eqb_spec (ncols L) 0) as [E | _]; [contradiction |].
  cbn [bind]. do 3 f_equal. unfold np_sum1, map2d. cbn [rows].
  rewrite combine_map_r, !map_map. reflexivity.
Qed.

Lemma mapM_Forall2 {A B} (f : A -> result B) l bs :
  mapM f l = Ok bs -> Forall2 (fun a b => f a = Ok b) l bs.
Proof.
  revert bs. induction l as [| a l IH]; simpl; intros bs H.
  - injection H as <-. constructor.
  - destruct (f a) as [b |] eqn:E; [| discriminate]. simpl in H.
    destruct (mapM f l) as [bs' |]; [| discriminate]. simpl in H.
    injection H as <-. constructor; [exact E | apply IH; reflexivity].
Qed.

Lemma dt_temp_of_rows self L :
  dt_temp_of self = Ok L -> Forall (fun r => length r = K self) (rows L).
Proof.
  unfold dt_temp_of. intros H.
  destruct (mapM _ (seq 0 (D self))) as [rs |] eqn:E; [| discriminate].
  simpl in H. injection H as <-. cbn [rows].
  apply mapM_Forall2 in E. induction E as [| d r ds rs Hr _ IH]; constructor.
  - rewrite (mapM_length _ _ _ Hr). apply length_seq.
  - exact IH.
Qed.

Lemma Forall_eq_repeat {A} (a : A) l :
  Forall (fun x => x = a) l -> l = repeat a (length l).
Proof. induction 1 as [| x l -> _ IH]; simpl; [reflexivity | f_equal; exact IH]. Qed.

Lemma row_max_NInf n : row_max (repeat NInf (S n)) = NInf.
Proof. simpl. induction n as [| n IH]; [reflexivity | exact IH]. Qed.

Lemma np_sum_zeros n : np_sum (repeat (Fin 0) n) = Fin 0.
Proof.
  induction n as [| n IH]; [reflexivity |].
  change (fadd (Fin 0) (np_sum (repeat (Fin 0) n)) = Fin 0).
  rewrite IH. simpl. f_equal. lra.
Qed.

(** An E-step on a row of log-weights that is minus infinity throughout. *)
Lemma E_step_ninf_row self L d r :
  dt_temp_of self = Ok L ->
  K self <> 0%nat ->
  nth_error (rows L) d = Some r ->
  Forall (fun x => x = NInf) r ->
  exists self' z,
    E_step self = Ok self' /\
    ll self' = Some NaN /\
    ll_history self' = ll_history self ++ [NaN] /\
    zs self' = Some z /\
    nth_error (rows z) d = Some (repeat NaN (K self)).
Proof.
  intros Hdt HK Hd Hr.
  assert (Hlen : length r = K self).
  { pose proof (dt_temp_of_rows _ _ Hdt) as HF. rewrite Forall_forall in HF.
    apply HF. eapply nth_error_In. exact Hd. }
  apply Forall_eq_repeat in Hr. rewrite Hlen in Hr.
  destruct (K self) as [| n] eqn:EK; [contradiction |].
  assert (Hll : complete_ll L L = Ok NaN).
  { rewrite complete_ll_unfold by (rewrite (dt_temp_of_ncols _ _ Hdt); lia).
    rewrite np_sum_NaN; [reflexivity |].
    apply in_map_iff. exists r. split; [| eapply nth_error_In; exact Hd].
    rewrite Hr, row_max_NInf, !map_repeat. reflexivity. }
  rewrite (E_step_unfold _ _ Hdt), Hll. cbn [bind].
  eexists. eexists. repeat split. cbn [zs].
  unfold normalize_rows, map2d. cbn [rows]. rewrite map_map.
  rewrite (map_nth_error _ _ _ Hd). f_equal.
  rewrite Hr, !map_repeat. cbn beta. cbn [fexp].
  rewrite np_sum_zeros, fdiv_0_0. reflexivity.
Qed.

Lemma big_nonneg n f : (forall i, (i < n)%nat -> 0 <= f i) -> 0 <= big n f.
Proof.
  intros H. apply Rsum_nonneg. apply Forall_forall. intros x Hx.
  apply in_map_iff in Hx. destruct Hx as [i [<- Hi]]. apply in_seq in Hi.
  apply H. lia.
Qed.

Lemma big_zero_nonneg n f :
  (forall i, (i < n)%nat -> 0 <= f i) -> big n f = 0 ->
  forall i, (i < n)%nat -> f i = 0.
Proof.
  induction n as [| n IH]; intros Hf H0 i Hi; [lia |].
  rewrite big_S_r in H0.
  assert (0 <= big n f) by (apply big_nonneg; intros; apply Hf; lia).
  assert (0 <= f n) by (apply Hf; lia).
  destruct (Nat.eq_dec i n) as [-> | Hne]; [lra |].
  apply IH; [intros; apply Hf; lia | lra | lia].
Qed.

Lemma ent_nonneg M n m d j :
  has_shape M n m -> Forall nonneg M -> (d < n)%nat -> (j < m)%nat ->
  0 <= ent M d j.
Proof.
  intros [Hn Hm] HM Hd Hj. unfold ent.
  rewrite Forall_forall in HM, Hm.
  assert (Hin : In (nth d M []) M) by (apply nth_In; lia).
  specialize (HM _ Hin). specialize (Hm _ Hin).
  unfold nonneg in HM. rewrite Forall_forall in HM.
  apply HM, nth_In. lia.
Qed.

Lemma fdiv_by_zero_not_finite a : ~ is_finite (fdiv (Fin a) (Fin 0)).
Proof.
  simpl. rewrite Rsign_0. destruct (Rsign a); simpl; tauto.
Qed.

Lemma nth_error_map_seq {A} (F : nat -> A) n k :
  (k < n)%nat -> nth_error (map F (seq 0 n)) k = Some (F k).
Proof.
  intros H. apply map_nth_error.
  rewrite (nth_error_nth' _ 0%nat) by (rewrite length_seq; assumption).
  rewrite seq_nth by assumption. reflexivity.
Qed.

(** An M-step on a topic whose weighted total is zero. *)
Lemma M_step_zero_total
    (X Z : list (list R)) (nD nV nK : nat) (self : EM_algo) (k : nat) :
  (1 <= nD)%nat ->
  has_shape X nD nV ->
  has_shape Z nD nK ->
  D self = nD ->
  data self = lift2 nV X ->
  zs self = Some (lift2 nK Z) ->
  (k < nK)%nat ->
  topic_total_spec Z X nD nV k = 0 ->
  exists self' b,
    M_step self = Ok self' /\
    nth_error (betas self') k = Some b /\
    length b = nV /\
    Forall (fun x => ~ is_finite x) b /\
    (Forall nonneg Z -> Forall nonneg X -> b = repeat NaN nV).
Proof.
  intros HD HX HZ HsD Hdata Hzs Hk Htot.
  rewrite (M_step_real X Z nD nV nK self HX HZ HsD Hdata Hzs HD).
  eexists. eexists. split; [reflexivity |]. cbn [betas].
  rewrite betas_of_fin_array. split; [apply nth_error_map_seq, Hk |].
  split; [rewrite !length_map, length_seq; reflexivity |]. split.
  - rewrite np_sum_fin_map.
    change (Rsum (map (raw_beta_spec Z X nD k) (seq 0 nV)))
      with (big nV (raw_beta_spec Z X nD k)).
    rewrite raw_total, Htot. rewrite map_map. apply Forall_forall.
    intros x Hx. apply in_map_iff in Hx. destruct Hx as [v [<- _]].
    apply fdiv_by_zero_not_finite.
  - intros PZ PX. apply (normalized_raw_row_zero (raw_beta_spec Z X nD k)).
    apply big_zero_nonneg.
    + intros v Hv. apply big_nonneg. intros d Hd.
      apply Rmult_le_pos; eapply ent_nonneg; eauto.
    + rewrite raw_total. exact Htot.
Qed.

(** C6, amended: the steps do not detect numerical degeneracies.  When a
    document's whole row of log-weights is minus infinity, [E_step] returns
    normally, with a NaN log-likelihood appended to the trajectory and a row
    of NaN responsibilities for that document; when a topic's weighted total
    [sum_d Z[d,k] * sum_v X[d,v]] is zero, [M_step] returns normally, with no
    finite entry in that topic's row of [beta], which is NaN throughout for
    non-negative counts and responsibilities. *)
Theorem degenerate_steps_return :
  (forall self L d r,
      dt_temp_of self = Ok L ->
      K self <> 0%nat ->
      nth_error (rows L) d = Some r ->
      Forall (fun x => x = NInf) r ->
      exists self' z,
        E_step self = Ok self' /\
        ll self' = Some NaN /\
        ll_history self' = ll_history self ++ [NaN] /\
        zs self' = Some z /\
        nth_error (rows z) d = Some (repeat NaN (K self))) /\
  (forall X Z nD nV nK self k,
      (1 <= nD)%nat ->
      has_shape X nD nV ->
      has_shape Z nD nK ->
      D self = nD ->
      data self = lift2 nV X ->
      zs self = Some (lift2 nK Z) ->
      (k < nK)%nat ->
      topic_total_spec Z X nD nV k = 0 ->
      exists self' b,
        M_step self = Ok self' /\
        nth_error (betas self') k = Some b /\
        length b = nV /\
        Forall (fun x => ~ is_finite x) b /\
        (Forall nonneg Z -> Forall nonneg X -> b = repeat NaN nV)).
Proof.
  split.
  - exact E_step_ninf_row.
  - exact M_step_zero_total.
Qed.

Lemma zero_rho_dt_temp :
  dt_temp_of zero_rho_state = Ok {| ncols := 1; rows := [[NInf]] |}.
Proof.
  unfold dt_temp_of, zero_rho_state, dt_entry.
  cbn [D K seq mapM rhos betas data rows lift2 map].
  cbn [index nth_error bind map].
  rewrite flog_0. unfold np_mul. cbn [length Nat.eqb combine map fst snd bind].
  rewrite flog_pos by lra. reflexivity.
Qed.

Lemma idle_topic_total : topic_total_spec [[1; 0]] [[1]] 1 1 1 = 0.
Proof. unfold topic_total_spec. rewrite !big_1. cbn [ent nth]. lra. Qed.

(** [degenerate_steps_return] on [zero_rho_state] and on
    [idle_topic_state]. *)
Lemma degenerate_steps_return_witness :
  (exists self' z,
      E_step zero_rho_state = Ok self' /\
      ll self' = Some NaN /\
      ll_history self' = ll_history zero_rho_state ++ [NaN] /\
      zs self' = Some z /\
      nth_error (rows z) 0 = Some (repeat NaN (K zero_rho_state))) /\
  (exists self' b,
      M_step idle_topic_state = Ok self' /\
      nth_error (betas self') 1 = Some b /\
      length b = 1%nat /\
      Forall (fun x => ~ is_finite x) b /\
      (Forall nonneg [[1; 0]] -> Forall nonneg [[1]] -> b = repeat NaN 1)).
Proof.
  split.
  - apply (proj1 degenerate_steps_return zero_rho_state
             {| ncols := 1; rows := [[NInf]] |} 0%nat [NInf]).
    + exact zero_rho_dt_temp.
    + simpl. lia.
    + reflexivity.
    + repeat constructor.
  - apply (proj2 degenerate_steps_return [[1]] [[1; 0]] 1%nat 1%nat 2%nat
             idle_topic_state 1%nat).
    + lia.
    + split; [reflexivity | repeat constructor].
    + split; [reflexivity | repeat constructor].
    + reflexivity.
    + reflexivity.
    + reflexivity.
    + lia.
    + exact idle_topic_total.
Defined.

(** C6 as stated fails: no step raises on a degeneracy.  [E_step] on a
    document whose only log-weight is minus infinity returns a NaN
    log-likelihood and the responsibilities [[NaN]]; [M_step] on a topic of
    total zero returns the emission row [[NaN]]. *)
Theorem degenerate_steps_do_not_raise :
  (exists self',
      E_step zero_rho_state = Ok self' /\
      ll self' = Some NaN /\
      zs self' = Some {| ncols := 1; rows := [[NaN]] |}) /\
  (exists self',
      M_step idle_topic_state = Ok self' /\
      nth_error (betas self') 1 = Some [NaN]).
Proof.
  split.
  - rewrite (E_step_unfold _ _ zero_rho_dt_temp).
    rewrite complete_ll_unfold by (simpl; lia). cbn [rows map row_max fold_left].
    eexists. split; [reflexivity |]. split; [reflexivity |].
    cbn [zs]. unfold normalize_rows, map2d. cbn [ncols rows map fexp].
    change (np_sum [Fin 0]) with (np_sum (repeat (Fin 0) 1)).
    rewrite np_sum_zeros, fdiv_0_0. reflexivity.
  - destruct (M_step_zero_total [[1]] [[1; 0]] 1 1 2 idle_topic_state 1)
      as [self' [b [HM [Hb [_ [_ HNaN]]]]]];
      try reflexivity; try lia;
      try (split; [reflexivity | repeat constructor]).
    + exact idle_topic_total.
    + exists self'. split; [exact HM |]. rewrite Hb. f_equal.
      apply HNaN; repeat constructor; lra.
Qed.

(** ** The constructor *)

Lemma array_eq_None_big n : (2 <= n)%nat -> array_eq_None n = Raise ValueError.
Proof. intros H. destruct n as [| [| n]]; [lia | lia | reflexivity]. Qed.

(** C7, amended: the constructor validates nothing.  Priors given as Python
    lists are accepted whatever their shape, signs and sums; and whenever
    construction returns, the priors that were supplied are stored as they
    are, without renormalisation. *)
Theorem init_stores_priors_unchecked
    (data0 : ndarray2) (K0 : nat)
    (prior_rhos : pyarg (list float64) (list float64))
    (prior_betas : pyarg (list (list float64)) ndarray2)
    (draw : result (list (list float64))) :
  (forall r b,
     __init__ data0 K0 (PyList r) (PyList b) draw =
     Ok {| D := shape0 data0; V := shape1 data0; K := K0; data := data0;
           rhos := r; betas := b; ll_history := []; ll := None; zs := None |}) /\
  (forall self,
     __init__ data0 K0 prior_rhos prior_betas draw = Ok self ->
     match prior_rhos with
     | PyNone => True
     | PyList l => rhos self = l
     | PyArray a => rhos self = a
     end /\
     match prior_betas with
     | PyNone => True
     | PyList l => betas self = l
     | PyArray a => betas self = rows a
     end).
Proof.
  split; [reflexivity |].
  intros self H. unfold __init__ in H.
  destruct prior_rhos as [| r | a].
  - split; [exact I |].
    destruct (uniform_rhos K0) as [r0 |]; [| discriminate]. cbn [bind] in H.
    destruct prior_betas as [| b | b]; [exact I | |].
    + injection H as <-. reflexivity.
    + destruct (array_eq_None (size2 b)) as [[|] |] eqn:E;
        try discriminate.
      * destruct (size2 b) as [| [| n]]; discriminate.
      * injection H as <-. reflexivity.
  - cbn [bind] in H. destruct prior_betas as [| b | b].
    + destruct draw; [| discriminate]. injection H as <-. split; [reflexivity | exact I].
    + injection H as <-. split; reflexivity.
    + destruct (array_eq_None (size2 b)) as [[|] |] eqn:E;
        try discriminate.
      * destruct (size2 b) as [| [| n]]; discriminate.
      * injection H as <-. split; reflexivity.
  - destruct (array_eq_None (length a)) as [[|] |] eqn:Ea; try discriminate.
    + destruct (length a) as [| [| n]]; discriminate.
    + cbn [bind] in H. destruct prior_betas as [| b | b].
      * destruct draw; [| discriminate]. injection H as <-.
        split; [reflexivity | exact I].
      * injection H as <-. split; reflexivity.
      * destruct (array_eq_None (size2 b)) as [[|] |] eqn:E;
          try discriminate.
        -- destruct (size2 b) as [| [| n]]; discriminate.
        -- injection H as <-. split; reflexivity.
Qed.

(** [init_stores_priors_unchecked] on a prior [rho] of the wrong length and a
    negative prior [beta]. *)
Lemma init_stores_priors_unchecked_witness :
  rhos {| D := 1; V := 1; K := 2; data := lift2 1 [[1]];
          rhos := [Fin 1]; betas := [[Fin (-1)]];
          ll_history := []; ll := None; zs := None |} = [Fin 1] /\
  betas {| D := 1; V := 1; K := 2; data := lift2 1 [[1]];
           rhos := [Fin 1]; betas := [[Fin (-1)]];
           ll_history := []; ll := None; zs := None |} = [[Fin (-1)]].
Proof.
  apply (proj2 (init_stores_priors_unchecked (lift2 1 [[1]]) 2
                  (PyList [Fin 1]) (PyList [[Fin (-1)]]) (Raise ValueError))).
  reflexivity.
Defined.

(** C7 as stated fails: with [K = 2], a prior [rho] of length 1 and a prior
    [beta] with one row, whose only entry is negative, construction succeeds
    and keeps both. *)
Theorem init_accepts_invalid_priors :
  exists self,
    __init__ (lift2 1 [[1]]) 2 (PyList [Fin 1]) (PyList [[Fin (-1)]])
             (Raise ValueError) = Ok self /\
    K self = 2%nat /\ length (rhos self) = 1%nat /\ betas self = [[Fin (-1)]].
Proof. eexists. split; [reflexivity |]. repeat split. Qed.

(** C10: a prior [rho] given as an array of length [K >= 2], or a prior
    [beta] given as an array of more than one element, makes the constructor
    raise: no instance is built and the prior is not stored. *)
Theorem init_array_prior_raises
    (data0 : ndarray2) (K0 : nat)
    (prior_rhos : pyarg (list float64) (list float64))
    (prior_betas : pyarg (list (list float64)) ndarray2)
    (draw : result (list (list float64))) :
  (exists a, prior_rhos = PyArray a /\ length a = K0 /\ (2 <= K0)%nat) \/
  (exists a, prior_betas = PyArray a /\ (2 <= size2 a)%nat) ->
  exists e, __init__ data0 K0 prior_rhos prior_betas draw = Raise e.
Proof.
  intros [[a [-> [Hlen HK]]] | [a [-> Hsize]]]; unfold __init__.
  - rewrite array_eq_None_big by lia. exists ValueError. reflexivity.
  - destruct (match prior_rhos with
              | PyNone => uniform_rhos K0
              | PyList l => Ok l
              | PyArray a0 => b <- array_eq_None (length a0) ;;
                              if b then uniform_rhos K0 else Ok a0
              end) as [r | e].
    + rewrite array_eq_None_big by exact Hsize. exists ValueError. reflexivity.
    + exists e. reflexivity.
Qed.

(** [init_array_prior_raises] on the array prior [rho = [1/2, 1/2]] with
    [K = 2]. *)
Lemma init_array_prior_raises_witness :
  exists e,
    __init__ (lift2 1 [[1]]) 2 (PyArray [Fin (1/2); Fin (1/2)]) PyNone
             (Ok [[Fin 1]; [Fin 1]]) = Raise e.
Proof.
  apply init_array_prior_raises.
  left. exists [Fin (1/2); Fin (1/2)].
  split; [reflexivity |]. split; [reflexivity | lia].
Defined.

(** ** One E-step and one M-step on real parameters *)

Lemma mat_shape n m f : has_shape (mat n m f) n m.
Proof.
  unfold mat. split; [rewrite length_map, length_seq; reflexivity |].
  apply Forall_forall. intros r Hr. apply in_map_iff in Hr.
  destruct Hr as [i [<- _]]. rewrite length_map, length_seq. reflexivity.
Qed.

Lemma lift2_mat n m f : lift2 m (mat n m f) = fin_array n m f.
Proof.
  unfold lift2, mat, fin_array. f_equal. rewrite map_map. apply map_ext.
  intros i. apply map_map.
Qed.

Lemma normalize_exp_fin_array nD nK L :
  (1 <= nK)%nat ->
  normalize_rows (map2d fexp (fin_array nD nK L)) = fin_array nD nK (resp_spec nK L).
Proof.
  intros HK. unfold normalize_rows, map2d, fin_array. cbn [ncols rows]. f_equal.
  rewrite !map_map. apply map_ext. intros d. rewrite !map_map.
  apply map_ext. intros k. cbn [fexp]. rewrite np_sum_fin_map.
  apply fdiv_fin. apply Rgt_not_eq. apply (big_pos nK); [assumption |].
  intros. apply exp_pos.
Qed.

Section RealStep.

Variables (X : list (list R)) (nV nK : nat) (rho : list R)
          (beta : list (list R)).
Variables (hist : list float64) (l0 : option float64) (z0 : option ndarray2).

Hypothesis K_pos : (1 <= nK)%nat.
Hypothesis X_shape : Forall (fun r => length r = nV) X.
Hypothesis rho_shape : length rho = nK.
Hypothesis beta_shape : has_shape beta nK nV.
Hypothesis rho_pos : positive rho.
Hypothesis beta_pos : Forall positive beta.

Lemma E_step_real :
  E_step (real_state X nV nK rho beta hist l0 z0) =
  Ok (real_state X nV nK rho beta
        (hist ++ [Fin (em_ll X nV nK rho beta)])
        (Some (Fin (em_ll X nV nK rho beta)))
        (Some (lift2 nK (em_resp X nV nK rho beta)))).
Proof.
  rewrite (E_step_unfold _ _
             (dt_temp_of_real X nV nK rho beta hist l0 z0
                X_shape rho_shape beta_shape rho_pos beta_pos)).
  rewrite complete_ll_fin by assumption. rewrite log_sum_exp_split.
  cbn [bind]. rewrite normalize_exp_fin_array by assumption.
  unfold em_resp. rewrite lift2_mat. reflexivity.
Qed.

End RealStep.

Lemma M_step_after_E_real
    (X : list (list R)) (nV nK : nat) (rho : list R) (beta : list (list R))
    (hist' : list float64) (l' : option float64) :
  Forall (fun r => length r = nV) X ->
  (1 <= length X)%nat ->
  (forall k, (k < nK)%nat ->
     big nV (raw_beta_spec (em_resp X nV nK rho beta) X (length X) k) <> 0) ->
  M_step (real_state X nV nK rho beta hist' l'
            (Some (lift2 nK (em_resp X nV nK rho beta)))) =
  Ok (real_state X nV nK (em_rho X nV nK rho beta) (em_beta X nV nK rho beta)
        hist' l' (Some (lift2 nK (em_resp X nV nK rho beta)))).
Proof.
  intros HX HD Htot.
  rewrite (M_step_real X (em_resp X nV nK rho beta) (length X) nV nK).
  - unfold real_state. cbn [D V K data ll_history ll zs]. do 2 f_equal.
    + unfold em_rho. rewrite map_map. reflexivity.
    + rewrite betas_of_fin_array. unfold em_beta, mat. rewrite map_map.
      apply map_ext_in. intros k Hk. apply in_seq in Hk.
      rewrite (normalized_raw_row
                 (raw_beta_spec (em_resp X nV nK rho beta) X (length X) k))
        by (apply Htot; lia).
      rewrite map_map. reflexivity.
  - split; [reflexivity | exact HX].
  - apply mat_shape.
  - reflexivity.
  - reflexivity.
  - reflexivity.
  - exact HD.
Qed.

(** ** The driver *)

Lemma iterate_loop_pass fuel tol max_iter count self s1 s2 :
  E_step self = Ok s1 ->
  M_step s1 = Ok s2 ->
  iterate_loop (S fuel) tol max_iter count self =
  if Nat.eqb (length (ll_history s2)) 1 then
    iterate_loop fuel tol max_iter count s2
  else
    match ll s2, index_m2 (ll_history s2) with
    | None, _ => Some (Raise AttributeError)
    | Some _, Raise e => Some (Raise e)
    | Some l, Ok prev =>
        if flt (fsub l prev) tol then Some (Ok (s2, [msg_tolerance]))
        else if Z.ltb max_iter count then Some (Ok (s2, [msg_max_iter]))
        else iterate_loop fuel tol max_iter (count + 1) s2
    end.
Proof. intros H1 H2. simpl. rewrite H1, H2. reflexivity. Qed.

Lemma index_m2_snoc2 h a b : index_m2 ((h ++ [a]) ++ [b]) = Ok a.
Proof.
  unfold index_m2. rewrite !rev_app_distr. reflexivity.
Qed.

Lemma length_snoc2 {A} (h : list A) a b :
  Nat.eqb (length ((h ++ [a]) ++ [b])) 1 = false.
Proof. rewrite !length_app. simpl. apply Nat.eqb_neq. lia. Qed.

Section RealPair.

Variables (X : list (list R)) (nV nK : nat) (rho : list R)
          (beta : list (list R)).

Hypothesis K_pos : (1 <= nK)%nat.
Hypothesis D_pos : (1 <= length X)%nat.
Hypothesis X_shape : Forall (fun r => length r = nV) X.
Hypothesis rho_shape : length rho = nK.
Hypothesis beta_shape : has_shape beta nK nV.
Hypothesis rho_pos : positive rho.
Hypothesis beta_pos : Forall positive beta.
Hypothesis totals :
  forall k, (k < nK)%nat ->
    big nV (raw_beta_spec (em_resp X nV nK rho beta) X (length X) k) <> 0.

(** A pass of the loop that is not the first one of a fresh instance. *)
Lemma iterate_loop_real_pass fuel tol max_iter count h prev l0 z0 :
  iterate_loop (S fuel) tol max_iter count
    (real_state X nV nK rho beta (h ++ [prev]) l0 z0) =
  let s2 := real_state X nV nK (em_rho X nV nK rho beta)
              (em_beta X nV nK rho beta)
              ((h ++ [prev]) ++ [Fin (em_ll X nV nK rho beta)])
              (Some (Fin (em_ll X nV nK rho beta)))
              (Some (lift2 nK (em_resp X nV nK rho beta))) in
  if flt (fsub (Fin (em_ll X nV nK rho beta)) prev) tol then
    Some (Ok (s2, [msg_tolerance]))
  else if Z.ltb max_iter count then Some (Ok (s2, [msg_max_iter]))
  else iterate_loop fuel tol max_iter (count + 1) s2.
Proof.
  rewrite (iterate_loop_pass _ _ _ _ _ _ _
             (E_step_real X nV nK rho beta (h ++ [prev]) l0 z0
                K_pos X_shape rho_shape beta_shape rho_pos beta_pos)
             (M_step_after_E_real X nV nK rho beta _ _ X_shape D_pos totals)).
  cbn [real_state ll_history ll]. rewrite length_snoc2, index_m2_snoc2.
  reflexivity.
Qed.

(** The first pass of a fresh instance: no test, and the counter is left
    as it is. *)
Lemma iterate_loop_real_first fuel tol max_iter count l0 z0 :
  iterate_loop (S fuel) tol max_iter count
    (real_state X nV nK rho beta [] l0 z0) =
  iterate_loop fuel tol max_iter count
    (real_state X nV nK (em_rho X nV nK rho beta) (em_beta X nV nK rho beta)
       ([] ++ [Fin (em_ll X nV nK rho beta)])
       (Some (Fin (em_ll X nV nK rho beta)))
       (Some (lift2 nK (em_resp X nV nK rho beta)))).
Proof.
  rewrite (iterate_loop_pass _ _ _ _ _ _ _
             (E_step_real X nV nK rho beta [] l0 z0
                K_pos X_shape rho_shape beta_shape rho_pos beta_pos)
             (M_step_after_E_real X nV nK rho beta _ _ X_shape D_pos totals)).
  reflexivity.
Qed.

End RealPair.

(** ** One document, one word, one topic *)

Section OneWord.

Variables r b : R.
Hypothesis r_pos : 0 < r.
Hypothesis b_pos : 0 < b.

Lemma one_word_L : log_weight_spec [[1]] [r] [[b]] 1 0 0 = ln r + ln b.
Proof.
  unfold log_weight_spec. rewrite big_1. cbn [ent nth]. lra.
Qed.

Lemma one_word_ll : em_ll [[1]] 1 1 [r] [[b]] = ln r + ln b.
Proof.
  unfold em_ll, log_sum_exp_spec. cbn [length].
  rewrite !big_1, bigmax_1, one_word_L, Rminus_diag, exp_0, ln_1. lra.
Qed.

Lemma one_word_resp : em_resp [[1]] 1 1 [r] [[b]] = [[1]].
Proof.
  unfold em_resp, mat, resp_spec. cbn [length seq map].
  rewrite big_1. do 2 f_equal. field. apply Rgt_not_eq, exp_pos.
Qed.

Lemma one_word_rho : em_rho [[1]] 1 1 [r] [[b]] = [1].
Proof.
  unfold em_rho. rewrite one_word_resp. cbn [length seq map].
  unfold rho_new_spec. rewrite big_1. cbn [ent nth INR]. f_equal. field.
Qed.

Lemma one_word_raw : raw_beta_spec [[1]] [[1]] 1 0 0 = 1.
Proof. unfold raw_beta_spec. rewrite big_1. cbn [ent nth]. lra. Qed.

Lemma one_word_beta : em_beta [[1]] 1 1 [r] [[b]] = [[1]].
Proof.
  unfold em_beta. rewrite one_word_resp. unfold mat. cbn [length seq map].
  rewrite big_1, one_word_raw. do 2 f_equal. field.
Qed.

Lemma one_word_totals k :
  (k < 1)%nat ->
  big 1 (raw_beta_spec (em_resp [[1]] 1 1 [r] [[b]]) [[1]] (length [[1]]) k) <> 0.
Proof.
  intros Hk. destruct k; [| lia]. rewrite one_word_resp, big_1. cbn [length].
  rewrite one_word_raw. lra.
Qed.

Lemma one_word_X_shape : Forall (fun x : list R => length x = 1%nat) [[1]].
Proof. repeat constructor. Qed.

Lemma one_word_beta_shape : has_shape [[b]] 1 1.
Proof. split; [reflexivity | repeat constructor]. Qed.

Lemma one_word_rho_pos : positive [r].
Proof. repeat constructor. exact r_pos. Qed.

Lemma one_word_beta_pos : Forall positive [[b]].
Proof. repeat constructor. exact b_pos. Qed.

Lemma one_word_E_step hist l0 z0 :
  E_step (real_state [[1]] 1 1 [r] [[b]] hist l0 z0) =
  Ok (real_state [[1]] 1 1 [r] [[b]] (hist ++ [Fin (ln r + ln b)])
        (Some (Fin (ln r + ln b))) (Some (lift2 1 [[1]]))).
Proof.
  rewrite (E_step_real [[1]] 1 1 [r] [[b]] hist l0 z0
             (le_n 1) one_word_X_shape eq_refl one_word_beta_shape
             one_word_rho_pos one_word_beta_pos).
  rewrite one_word_ll, one_word_resp. reflexivity.
Qed.

Lemma one_word_M_step hist l0 :
  M_step (real_state [[1]] 1 1 [r] [[b]] hist l0 (Some (lift2 1 [[1]]))) =
  Ok (real_state [[1]] 1 1 [1] [[1]] hist l0 (Some (lift2 1 [[1]]))).
Proof.
  pose proof (M_step_after_E_real [[1]] 1 1 [r] [[b]] hist l0
                one_word_X_shape (le_n 1) one_word_totals) as H.
  rewrite one_word_rho, one_word_beta, one_word_resp in H. exact H.
Qed.

Lemma one_word_pass fuel tol max_iter count h prev l0 z0 :
  iterate_loop (S fuel) tol max_iter count
    (real_state [[1]] 1 1 [r] [[b]] (h ++ [prev]) l0 z0) =
  let s2 := real_state [[1]] 1 1 [1] [[1]]
              ((h ++ [prev]) ++ [Fin (ln r + ln b)])
              (Some (Fin (ln r + ln b))) (Some (lift2 1 [[1]])) in
  if flt (fsub (Fin (ln r + ln b)) prev) tol then
    Some (Ok (s2, [msg_tolerance]))
  else if Z.ltb max_iter count then Some (Ok (s2, [msg_max_iter]))
  else iterate_loop fuel tol max_iter (count + 1) s2.
Proof.
  rewrite (iterate_loop_real_pass [[1]] 1 1 [r] [[b]]
             (le_n 1) (le_n 1) one_word_X_shape eq_refl one_word_beta_shape
             one_word_rho_pos one_word_beta_pos one_word_totals).
  rewrite one_word_ll, one_word_rho, one_word_beta, one_word_resp.
  reflexivity.
Qed.

Lemma one_word_first fuel tol max_iter count l0 z0 :
  iterate_loop (S fuel) tol max_iter count
    (real_state [[1]] 1 1 [r] [[b]] [] l0 z0) =
  iterate_loop fuel tol max_iter count
    (real_state [[1]] 1 1 [1] [[1]] ([] ++ [Fin (ln r + ln b)])
       (Some (Fin (ln r + ln b))) (Some (lift2 1 [[1]]))).
Proof.
  rewrite (iterate_loop_real_first [[1]] 1 1 [r] [[b]]
             (le_n 1) (le_n 1) one_word_X_shape eq_refl one_word_beta_shape
             one_word_rho_pos one_word_beta_pos one_word_totals).
  rewrite one_word_ll, one_word_rho, one_word_beta, one_word_resp.
  reflexivity.
Qed.

End OneWord.

(** ** The stopping rule *)

(** C5, amended: a negative difference between the last two likelihoods is
    taken for convergence.  Whatever the non-negative tolerance, the pass
    that finds it stops the loop and prints the convergence message and
    nothing else. *)
Theorem negative_step_stops_as_converged
    (fuel : nat) (t : R) (max_iter count : Z) (self s1 s2 : EM_algo)
    (l prev : R) :
  E_step self = Ok s1 ->
  M_step s1 = Ok s2 ->
  length (ll_history s2) <> 1%nat ->
  ll s2 = Some (Fin l) ->
  index_m2 (ll_history s2) = Ok (Fin prev) ->
  l - prev < 0 ->
  0 <= t ->
  iterate_loop (S fuel) (Fin t) max_iter count self =
  Some (Ok (s2, [msg_tolerance])).
Proof.
  intros HE HM Hlen Hl Hprev Hneg Ht.
  rewrite (iterate_loop_pass _ _ _ _ _ _ _ HE HM).
  apply Nat.eqb_neq in Hlen. rewrite Hlen, Hl, Hprev.
  rewrite fsub_fin, flt_fin_true by lra. reflexivity.
Qed.

Lemma ln_2_pos : 0 < ln 2.
Proof. rewrite <- ln_1. apply ln_increasing; lra. Qed.

Lemma heavy_prior_instance_eq :
  heavy_prior_instance = Ok (real_state [[1]] 1 1 [2] [[1]] [] None None).
Proof. reflexivity. Qed.

Lemma heavy_prior_run (t : R) (max_iter : Z) :
  0 <= t ->
  iterate 2 (Fin t) max_iter (real_state [[1]] 1 1 [2] [[1]] [] None None) =
  Some (Ok (real_state [[1]] 1 1 [1] [[1]]
              [Fin (ln 2 + ln 1); Fin (ln 1 + ln 1)]
              (Some (Fin (ln 1 + ln 1))) (Some (lift2 1 [[1]])),
            [msg_tolerance])).
Proof.
  intros Ht. unfold iterate.
  rewrite one_word_first by lra. rewrite one_word_pass by lra.
  cbv zeta. rewrite fsub_fin, flt_fin_true; [reflexivity |].
  rewrite ln_1. pose proof ln_2_pos. lra.
Qed.

(** [negative_step_stops_as_converged] on the pass that follows the
    likelihood [log 2] with the likelihood [0]. *)
Lemma negative_step_stops_as_converged_witness :
  iterate_loop 1 (Fin (1/1000)) 500 0
    (real_state [[1]] 1 1 [1] [[1]] [Fin (ln 2 + ln 1)]
       (Some (Fin (ln 2 + ln 1))) (Some (lift2 1 [[1]]))) =
  Some (Ok (real_state [[1]] 1 1 [1] [[1]]
              [Fin (ln 2 + ln 1); Fin (ln 1 + ln 1)]
              (Some (Fin (ln 1 + ln 1))) (Some (lift2 1 [[1]])),
            [msg_tolerance])).
Proof.
  apply (negative_step_stops_as_converged 0 (1/1000) 500 0 _
           (real_state [[1]] 1 1 [1] [[1]]
              [Fin (ln 2 + ln 1); Fin (ln 1 + ln 1)]
              (Some (Fin (ln 1 + ln 1))) (Some (lift2 1 [[1]])))
           _ (ln 1 + ln 1) (ln 2 + ln 1)).
  - apply one_word_E_step; lra.
  - apply one_word_M_step; lra.
  - simpl. lia.
  - reflexivity.
  - reflexivity.
  - rewrite ln_1. pose proof ln_2_pos. lra.
  - lra.
Defined.

(** C5 as stated fails: built from the list priors [rho = [2.]] and
    [beta = [[1.]]], the fit records the likelihoods [log 2] and then [0]; on
    this negative difference the driver, with its default tolerance, stops
    with the convergence message alone. *)
Theorem negative_step_no_warning :
  exists self s',
    heavy_prior_instance = Ok self /\
    iterate 2 (Fin (1/1000)) 500 self = Some (Ok (s', [msg_tolerance])) /\
    ll_history s' = [Fin (ln 2 + ln 1); Fin (ln 1 + ln 1)] /\
    (ln 1 + ln 1) - (ln 2 + ln 1) < 0.
Proof.
  eexists. eexists. split; [exact heavy_prior_instance_eq |].
  split; [apply heavy_prior_run; lra |]. split; [reflexivity |].
  rewrite ln_1. pose proof ln_2_pos. lra.
Qed.

(** ** The bound on the number of passes *)

Lemma one_word_instance_eq :
  one_word_instance = Ok (real_state [[1]] 1 1 [1 / INR 1] [[1]] [] None None).
Proof. reflexivity. Qed.

Lemma one_word_stationary_pass fuel (max_iter count : Z) h x l0 z0 :
  x <= 0 ->
  iterate_loop (S fuel) (Fin 0) max_iter count
    (real_state [[1]] 1 1 [1] [[1]] (h ++ [Fin x]) l0 z0) =
  if Z.ltb max_iter count then
    Some (Ok (real_state [[1]] 1 1 [1] [[1]]
                ((h ++ [Fin x]) ++ [Fin (ln 1 + ln 1)])
                (Some (Fin (ln 1 + ln 1))) (Some (lift2 1 [[1]])),
              [msg_max_iter]))
  else
    iterate_loop fuel (Fin 0) max_iter (count + 1)
      (real_state [[1]] 1 1 [1] [[1]]
         ((h ++ [Fin x]) ++ [Fin (ln 1 + ln 1)])
         (Some (Fin (ln 1 + ln 1))) (Some (lift2 1 [[1]]))).
Proof.
  intros Hx. rewrite one_word_pass by lra. cbv zeta.
  rewrite fsub_fin, flt_fin_false; [reflexivity |].
  rewrite ln_1. lra.
Qed.

Lemma one_word_stationary_run (max_iter : Z) m :
  forall count h x l0 z0,
    x <= 0 ->
    Z.of_nat m = (max_iter - count + 1)%Z ->
    exists s',
      iterate_loop (S m) (Fin 0) max_iter count
        (real_state [[1]] 1 1 [1] [[1]] (h ++ [Fin x]) l0 z0)
        = Some (Ok (s', [msg_max_iter])) /\
      length (ll_history s') = (length h + 1 + S m)%nat.
Proof.
  induction m as [| m IH]; intros count h x l0 z0 Hx Hm;
    rewrite one_word_stationary_pass by assumption.
  - destruct (Z.ltb_spec max_iter count) as [_ | Hle]; [| lia].
    eexists. split; [reflexivity |].
    cbn [real_state ll_history]. rewrite !length_app. simpl. lia.
  - destruct (Z.ltb_spec max_iter count) as [Hlt | _]; [lia |].
    destruct (IH (count + 1)%Z (h ++ [Fin x]) (ln 1 + ln 1)
                 (Some (Fin (ln 1 + ln 1))) (Some (lift2 1 [[1]])))
      as [s' [Hrun Hlen]]; [rewrite ln_1; lra | lia |].
    exists s'. split; [exact Hrun |].
    rewrite Hlen, length_app. simpl. lia.
Qed.

(** C4: the bound of [max_iter + 1] passes is exceeded.  On the single
    document [[1.]] with one topic the likelihood is 0 at every pass, so with
    [tolerance = 0] the tolerance test never holds; for every
    [max_iter = n >= 0] the driver stops on the iteration bound, and only
    after [n + 3] passes, the number of likelihoods it has recorded. *)
Theorem iterate_runs_max_iter_plus_3 (n : nat) :
  exists self s',
    one_word_instance = Ok self /\
    iterate (n + 3) (Fin 0) (Z.of_nat n) self = Some (Ok (s', [msg_max_iter])) /\
    length (ll_history s') = (n + 3)%nat.
Proof.
  assert (E : 1 / INR 1 = 1) by (simpl; field).
  destruct (one_word_stationary_run (Z.of_nat n) (n + 1) 0%Z [] (ln 1 + ln 1)
              (Some (Fin (ln 1 + ln 1))) (Some (lift2 1 [[1]])))
    as [s' [Hrun Hlen]]; [rewrite ln_1; lra | lia |].
  eexists. exists s'. split; [exact one_word_instance_eq |].
  unfold iterate. rewrite E. replace (n + 3)%nat with (S (S (n + 1))) by lia.
  rewrite one_word_first by lra. split; [exact Hrun |].
  rewrite Hlen. simpl. lia.
Qed.

(** ** Sums of exponentials *)

Lemma big_le n f g :
  (forall i, (i < n)%nat -> f i <= g i) -> big n f <= big n g.
Proof.
  intros H. apply Rsum_map_le. intros i Hi. apply in_seq in Hi. apply H. lia.
Qed.

(** The log-sum-exp with any shift is the logarithm of the sum of the
    exponentials. *)
Lemma shifted_log_sum_exp nK (a : nat -> R) (B : R) :
  (1 <= nK)%nat ->
  B + ln (big nK (fun k => exp (a k - B))) = ln (big nK (fun k => exp (a k))).
Proof.
  intros HK.
  rewrite (big_ext nK _ (fun k => exp (- B) * exp (a k))).
  - rewrite big_scal, ln_mult, ln_exp; [lra | apply exp_pos |].
    apply big_pos; [assumption | intros; apply exp_pos].
  - intros k _. rewrite <- exp_plus. f_equal. lra.
Qed.

Lemma log_sum_exp_spec_eq nD nK L :
  (1 <= nK)%nat ->
  log_sum_exp_spec nD nK L = big nD (fun d => ln (big nK (fun k => exp (L d k)))).
Proof.
  intros HK. unfold log_sum_exp_spec. apply big_ext. intros d _.
  apply shifted_log_sum_exp, HK.
Qed.


(** ** A word that is in no document *)

Lemma big_2 f : big 2 f = f 0%nat + f 1%nat.
Proof. unfold big. simpl. lra. Qed.

Lemma absent_word_resp : em_resp [[1; 0]] 2 1 [1] [[1/2; 1/2]] = [[1]].
Proof.
  unfold em_resp, mat, resp_spec. cbn [length seq map].
  rewrite big_1. do 2 f_equal. field. apply Rgt_not_eq, exp_pos.
Qed.

Lemma absent_word_rho : em_rho [[1; 0]] 2 1 [1] [[1/2; 1/2]] = [1].
Proof.
  unfold em_rho. rewrite absent_word_resp. cbn [length seq map].
  unfold rho_new_spec. rewrite big_1. cbn [ent nth INR]. f_equal. field.
Qed.

Lemma absent_word_beta : em_beta [[1; 0]] 2 1 [1] [[1/2; 1/2]] = [[1; 0]].
Proof.
  unfold em_beta. rewrite absent_word_resp. unfold mat. cbn [length seq map].
  rewrite big_2. unfold raw_beta_spec. rewrite !big_1. cbn [ent nth].
  do 2 f_equal; [field | f_equal; field].
Qed.

Lemma absent_word_valid : valid_params 2 1 [1] [[1/2; 1/2]].
Proof.
  split; [reflexivity |]. split; [split; [reflexivity | repeat constructor] |].
  split; [repeat constructor; lra |]. split; [repeat constructor; lra |].
  split; [simpl; lra | repeat constructor; simpl; lra].
Qed.

Lemma zero_emission_dt_temp hist l0 z0 :
  dt_temp_of (real_state [[1; 0]] 2 1 [1] [[1; 0]] hist l0 z0) =
  Ok {| ncols := 1; rows := [[NaN]] |}.
Proof.
  unfold dt_temp_of, real_state, dt_entry, lift2.
  cbn [D K seq mapM rhos betas data rows length map].
  cbn [index nth_error bind map].
  rewrite flog_0, !flog_pos by lra.
  unfold np_mul. cbn [length Nat.eqb combine map fst snd].
  rewrite fmul_0_NInf. cbn [bind].
  rewrite (np_sum_NaN [fmul (Fin 1) (Fin (ln 1)); NaN]) by (right; left; reflexivity).
  rewrite fadd_NaN_r. reflexivity.
Qed.

Lemma absent_word_init :
  __init__ (lift2 2 [[1; 0]]) 1 (PyList [Fin 1])
           (PyList [[Fin (1/2); Fin (1/2)]]) (Raise ValueError) =
  Ok absent_word_state.
Proof. reflexivity. Qed.

(** The first pass: the absent word gets the emission 0. *)
Lemma absent_word_first fuel tol max_iter count :
  iterate_loop (S fuel) tol max_iter count absent_word_state =
  iterate_loop fuel tol max_iter count
    (real_state [[1; 0]] 2 1 [1] [[1; 0]]
       ([] ++ [Fin (em_ll [[1; 0]] 2 1 [1] [[1/2; 1/2]])])
       (Some (Fin (em_ll [[1; 0]] 2 1 [1] [[1/2; 1/2]])))
       (Some (lift2 1 [[1]]))).
Proof.
  destruct absent_word_valid as [Hlen [Hshape [Hrp [Hbp _]]]].
  unfold absent_word_state.
  rewrite (iterate_loop_real_first [[1; 0]] 2 1 [1] [[1/2; 1/2]]);
    try assumption.
  - rewrite absent_word_rho, absent_word_beta, absent_word_resp. reflexivity.
  - lia.
  - simpl. lia.
  - repeat constructor.
  - intros k Hk. destruct k; [| lia].
    rewrite absent_word_resp, big_2. unfold raw_beta_spec. rewrite !big_1.
    cbn [ent nth]. lra.
Qed.

(** With the emission 0 on a word of count 0 the log-weight is a NaN, and so
    is everything the pass computes. *)
Lemma zero_emission_pair hist l0 z0 :
  exists s1,
    E_step (real_state [[1; 0]] 2 1 [1] [[1; 0]] hist l0 z0) = Ok s1 /\
    M_step s1 = Ok (nan_state (hist ++ [NaN])).
Proof.
  eexists. split.
  - rewrite (E_step_unfold _ _ (zero_emission_dt_temp _ _ _)).
    rewrite complete_ll_unfold by (simpl; lia).
    cbn [rows map row_max fold_left bind]. reflexivity.
  - reflexivity.
Qed.

Lemma nan_dt_temp hist :
  dt_temp_of (nan_state hist) = Ok {| ncols := 1; rows := [[NaN]] |}.
Proof. reflexivity. Qed.

(** The all-NaN state is reproduced by every later pass. *)
Lemma nan_pair hist :
  exists s1,
    E_step (nan_state hist) = Ok s1 /\
    M_step s1 = Ok (nan_state (hist ++ [NaN])).
Proof.
  eexists. split.
  - rewrite (E_step_unfold _ _ (nan_dt_temp _)).
    rewrite complete_ll_unfold by (simpl; lia).
    cbn [rows map row_max fold_left bind]. reflexivity.
  - reflexivity.
Qed.

(** A NaN likelihood never passes the tolerance test. *)
Lemma flt_NaN_diff prev tol : flt (fsub NaN prev) tol = false.
Proof. reflexivity. Qed.

Lemma nan_pass fuel tol max_iter count h x :
  iterate_loop (S fuel) tol max_iter count (nan_state (h ++ [x])) =
  if Z.ltb max_iter count then
    Some (Ok (nan_state ((h ++ [x]) ++ [NaN]), [msg_max_iter]))
  else
    iterate_loop fuel tol max_iter (count + 1) (nan_state ((h ++ [x]) ++ [NaN])).
Proof.
  destruct (nan_pair (h ++ [x])) as [s1 [H1 H2]].
  rewrite (iterate_loop_pass _ _ _ _ _ _ _ H1 H2).
  cbn [nan_state ll_history ll]. rewrite length_snoc2, index_m2_snoc2.
  rewrite flt_NaN_diff. reflexivity.
Qed.

Lemma nan_run tol (max_iter : Z) m :
  forall count h x,
    Z.of_nat m = (max_iter - count + 1)%Z ->
    iterate_loop (S m) tol max_iter count (nan_state (h ++ [x])) =
    Some (Ok (nan_state ((h ++ [x]) ++ repeat NaN (S m)), [msg_max_iter])).
Proof.
  induction m as [| m IH]; intros count h x Hm; rewrite nan_pass.
  - destruct (Z.ltb_spec max_iter count) as [_ | Hle]; [| lia]. reflexivity.
  - destruct (Z.ltb_spec max_iter count) as [Hlt | _]; [lia |].
    rewrite IH by lia.
    rewrite <- (app_assoc (h ++ [x]) [NaN]). reflexivity.
Qed.

Lemma absent_word_run tol (n : nat) :
  iterate (S (S (S n))) tol (Z.of_nat n) absent_word_state =
  Some (Ok (nan_state
              (Fin (em_ll [[1; 0]] 2 1 [1] [[1/2; 1/2]]) :: repeat NaN (S (S n))),
            [msg_max_iter])).
Proof.
  unfold iterate. rewrite absent_word_first.
  destruct (zero_emission_pair
              ([] ++ [Fin (em_ll [[1; 0]] 2 1 [1] [[1/2; 1/2]])])
              (Some (Fin (em_ll [[1; 0]] 2 1 [1] [[1/2; 1/2]])))
              (Some (lift2 1 [[1]]))) as [s1 [H1 H2]].
  rewrite (iterate_loop_pass _ _ _ _ _ _ _ H1 H2).
  cbn [nan_state ll_history ll]. rewrite length_snoc2, index_m2_snoc2.
  rewrite flt_NaN_diff.
  destruct (Z.ltb_spec (Z.of_nat n) 0) as [Hlt | _]; [lia |].
  rewrite nan_run by lia. reflexivity.
Qed.

(** C8: the claim is that, for every run of the fit, consecutive entries of
    the likelihood trajectory differ by at least [-1e-9].  On the instance
    the constructor builds from the counts [[1, 0]], one topic and the priors
    [rho = [1]], [beta = [[1/2, 1/2]]] (both on the simplex), the first
    M-step gives the absent word the emission exactly 0, the second E-step
    computes [0 * log 0] and records a NaN, and from then on every parameter
    and every recorded likelihood is a NaN: for every tolerance and every
    [max_iter = n >= 0] the run stops on the iteration bound with the
    trajectory [[a; NaN; ...; NaN]], whose first pair already fails the
    inequality. *)
Theorem fit_with_absent_word_records_NaN (n : nat) (tol : float64) :
  __init__ (lift2 2 [[1; 0]]) 1 (PyList [Fin 1])
           (PyList [[Fin (1/2); Fin (1/2)]]) (Raise ValueError) =
    Ok absent_word_state /\
  valid_params 2 1 [1] [[1/2; 1/2]] /\
  exists s' a,
    iterate (n + 3) tol (Z.of_nat n) absent_word_state =
      Some (Ok (s', [msg_max_iter])) /\
    ll_history s' = Fin a :: repeat NaN (n + 2) /\
    rhos s' = [NaN] /\
    betas s' = [[NaN; NaN]] /\
    ~ increments_at_least (- (1 / 1000000000)) (ll_history s').
Proof.
  split; [exact absent_word_init |]. split; [exact absent_word_valid |].
  replace (n + 3)%nat with (S (S (S n))) by lia.
  replace (n + 2)%nat with (S (S n)) by lia.
  eexists. eexists. split; [apply absent_word_run |].
  cbn [nan_state ll_history rhos betas].
  split; [reflexivity |]. split; [reflexivity |]. split; [reflexivity |].
  intros H.
  destruct (H 0%nat (Fin (em_ll [[1; 0]] 2 1 [1] [[1/2; 1/2]])) NaN
              eq_refl eq_refl) as [x [y [_ [Hy _]]]].
  discriminate Hy.
Qed.

(** * Further properties of the class *)

(** ** What each step reads and writes *)

Lemma E_step_inv self s1 :
  E_step self = Ok s1 ->
  exists dt l,
    dt_temp_of self = Ok dt /\ complete_ll dt dt = Ok l /\
    s1 = {| D := D self; V := V self; K := K self; data := data self;
            rhos := rhos self; betas := betas self;
            ll_history := ll_history self ++ [l]; ll := Some l;
            zs := Some (normalize_rows (map2d fexp dt)) |}.
Proof.
  unfold E_step. intros H.
  destruct (dt_temp_of self) as [dt |]; [| discriminate]. cbn [bind] in H.
  destruct (complete_ll dt dt) as [l |] eqn:El; [| discriminate].
  cbn [bind] in H.
  injection H as <-. exists dt, l. repeat split. exact El.
Qed.

Lemma M_step_inv s1 s2 :
  M_step s1 = Ok s2 ->
  exists z bt,
    zs s1 = Some z /\ np_dot (transpose z) (data s1) = Ok bt /\
    s2 = {| D := D s1; V := V s1; K := K s1; data := data s1;
            rhos := map (fun s => fdiv s (Fin (INR (D s1)))) (np_sum0 z);
            betas := rows (normalize_rows bt);
            ll_history := ll_history s1; ll := ll s1; zs := zs s1 |}.
Proof.
  unfold M_step. intros H.
  destruct (zs s1) as [z |]; [| discriminate].
  destruct (np_dot (transpose z) (data s1)) as [bt |] eqn:Ebt; [| discriminate].
  cbn [bind] in H. injection H as <-. exists z, bt. repeat split. exact Ebt.
Qed.

Lemma pair_history self s1 s2 :
  E_step self = Ok s1 -> M_step s1 = Ok s2 ->
  exists l, ll s2 = Some l /\ ll_history s2 = ll_history self ++ [l].
Proof.
  intros HE HM.
  destruct (E_step_inv _ _ HE) as [dt [l [_ [_ ->]]]].
  destruct (M_step_inv _ _ HM) as [z [bt [_ [_ ->]]]].
  exists l. split; reflexivity.
Qed.

(** ** Shapes *)

Lemma np_mul_same_length a b :
  length a = length b ->
  np_mul a b = Ok (map (fun p => fmul (fst p) (snd p)) (combine a b)).
Proof. intros H. unfold np_mul. rewrite H, Nat.eqb_refl. reflexivity. Qed.

Lemma index_ok {A} (l : list A) i : (i < length l)%nat -> exists x, index l i = Ok x /\ In x l.
Proof.
  intros H. unfold index. destruct (nth_error l i) as [x |] eqn:E.
  - exists x. split; [reflexivity | eapply nth_error_In; exact E].
  - apply nth_error_None in E. lia.
Qed.

Lemma dt_entry_well_shaped self d k :
  well_shaped self -> (d < D self)%nat -> (k < K self)%nat ->
  exists x, dt_entry self d k = Ok x.
Proof.
  intros [_ [HD [_ [HX [Hr [Hb Hbr]]]]]] Hd Hk. unfold dt_entry.
  destruct (index_ok (rhos self) k) as [r [-> _]]; [lia |]. cbn [bind].
  destruct (index_ok (rows (data self)) d) as [x [-> Hx]];
    [unfold shape0 in HD; lia |]. cbn [bind].
  destruct (index_ok (betas self) k) as [b [-> Hbk]]; [lia |]. cbn [bind].
  rewrite Forall_forall in HX, Hbr.
  rewrite np_mul_same_length
    by (rewrite length_map, (HX _ Hx), (Hbr _ Hbk); reflexivity).
  cbn [bind]. eexists. reflexivity.
Qed.

Lemma mapM_total {A B} (f : A -> result B) l :
  (forall a, In a l -> exists b, f a = Ok b) -> exists bs, mapM f l = Ok bs.
Proof.
  induction l as [| a l IH]; intros H; [exists []; reflexivity |].
  destruct (H a (or_introl eq_refl)) as [b Hb].
  destruct IH as [bs Hbs]; [intros; apply H; right; assumption |].
  exists (b :: bs). simpl. rewrite Hb. cbn [bind]. rewrite Hbs. reflexivity.
Qed.

Lemma dt_temp_of_well_shaped self :
  well_shaped self -> exists dt, dt_temp_of self = Ok dt.
Proof.
  intros Hw. unfold dt_temp_of.
  destruct (mapM_total (fun doc => mapM (dt_entry self doc) (seq 0 (K self)))
              (seq 0 (D self))) as [rs Hrs].
  - intros d Hd. apply in_seq in Hd. apply mapM_total.
    intros k Hk. apply in_seq in Hk. apply dt_entry_well_shaped; [assumption | lia ..].
  - rewrite Hrs. cbn [bind]. eexists. reflexivity.
Qed.

Lemma normalize_exp_rows dt n :
  Forall (fun r => length r = n) (rows dt) ->
  Forall (fun r => length r = n) (rows (normalize_rows (map2d fexp dt))).
Proof.
  intros H. unfold normalize_rows, map2d. cbn [rows]. rewrite map_map.
  apply Forall_forall. intros r Hr. apply in_map_iff in Hr.
  destruct Hr as [r0 [<- Hr0]]. rewrite !length_map.
  rewrite Forall_forall in H. apply H, Hr0.
Qed.

Lemma pair_well_shaped (self : EM_algo) :
  well_shaped self ->
  exists s1 s2 l,
    E_step self = Ok s1 /\ M_step s1 = Ok s2 /\
    well_shaped s2 /\
    ll s2 = Some l /\ ll_history s2 = ll_history self ++ [l] /\
    exists z, zs s2 = Some z /\ shape0 z = D self /\ ncols z = K self /\
              Forall (fun r => length r = K self) (rows z).
Proof.
  intros Hw. destruct (dt_temp_of_well_shaped self Hw) as [dt Hdt].
  pose proof Hw as [HK [HD [HV [HX [Hr [Hb Hbr]]]]]].
  destruct (complete_ll_returns dt) as [l Hl].
  { rewrite (dt_temp_of_ncols _ _ Hdt). exact HK. }
  pose proof (E_step_unfold _ _ Hdt) as HE. rewrite Hl in HE. cbn [bind] in HE.
  assert (Hz0 : shape0 (normalize_rows (map2d fexp dt)) = D self).
  { unfold shape0, normalize_rows, map2d. cbn [rows]. rewrite !length_map.
    apply (dt_temp_of_shape0 _ _ Hdt). }
  assert (Hzc : ncols (normalize_rows (map2d fexp dt)) = K self).
  { unfold normalize_rows, map2d. cbn [ncols]. apply (dt_temp_of_ncols _ _ Hdt). }
  assert (Hzr : Forall (fun r => length r = K self)
                  (rows (normalize_rows (map2d fexp dt)))).
  { apply normalize_exp_rows, (dt_temp_of_rows _ _ Hdt). }
  destruct (np_dot (transpose (normalize_rows (map2d fexp dt))) (data self))
    as [bt |] eqn:Ebt.
  2: { unfold np_dot in Ebt. cbn [ncols transpose] in Ebt.
       rewrite Hz0, HD, Nat.eqb_refl in Ebt. discriminate. }
  assert (Hbt : ncols bt = V self /\
                length (rows bt) = K self /\
                Forall (fun r => length r = V self) (rows bt)).
  { unfold np_dot in Ebt. cbn [ncols transpose] in Ebt.
    rewrite Hz0, HD, Nat.eqb_refl in Ebt. injection Ebt as <-. cbn [ncols rows].
    split; [exact HV |]. split.
    - rewrite !length_map, length_seq. exact Hzc.
    - apply Forall_forall. intros r Hrin. apply in_map_iff in Hrin.
      destruct Hrin as [c [<- _]]. rewrite length_map, length_seq. exact HV. }
  destruct Hbt as [_ [Hbt1 Hbt2]].
  eexists. eexists. exists l. split; [exact HE |].
  unfold M_step. cbn [zs data D V K ll_history ll]. rewrite Ebt. cbn [bind].
  split; [reflexivity |]. split; [| split; [reflexivity |]].
  - unfold well_shaped. cbn [K D V data rhos betas].
    split; [exact HK |]. split; [exact HD |]. split; [exact HV |].
    split; [exact HX |]. split; [| split].
    + unfold np_sum0. rewrite !length_map, length_seq. exact Hzc.
    + unfold normalize_rows. cbn [rows]. rewrite length_map. exact Hbt1.
    + unfold normalize_rows. cbn [rows].
      apply Forall_forall. intros r Hrin. apply in_map_iff in Hrin.
      destruct Hrin as [c [<- Hc]]. rewrite length_map.
      rewrite Forall_forall in Hbt2. apply Hbt2, Hc.
  - split; [reflexivity |].
    exists (normalize_rows (map2d fexp dt)). repeat split; assumption.
Qed.

(** The steps raise on shapes only: on a well-shaped instance, whatever the
    values it holds (zeros, negative numbers, infinities, NaN), [E_step]
    returns, [M_step] returns after it, and the instance is again
    well-shaped, with one more entry in its trajectory and [D] rows of [K]
    responsibilities. *)
Theorem steps_return_on_well_shaped (self : EM_algo) :
  well_shaped self ->
  exists s1 s2 l,
    E_step self = Ok s1 /\ M_step s1 = Ok s2 /\
    well_shaped s2 /\
    ll s2 = Some l /\ ll_history s2 = ll_history self ++ [l] /\
    exists z, zs s2 = Some z /\ shape0 z = D self /\ ncols z = K self /\
              Forall (fun r => length r = K self) (rows z).
Proof. exact (pair_well_shaped self). Qed.

Lemma zero_beta_well_shaped : well_shaped zero_beta_state.
Proof.
  unfold well_shaped, zero_beta_state. cbn.
  repeat split; try lia; repeat constructor.
Qed.

(** [steps_return_on_well_shaped] on [zero_beta_state], whose log-weights
    hold a NaN. *)
Lemma steps_return_on_well_shaped_witness :
  exists s1 s2 l,
    E_step zero_beta_state = Ok s1 /\ M_step s1 = Ok s2 /\
    well_shaped s2 /\
    ll s2 = Some l /\ ll_history s2 = ll_history zero_beta_state ++ [l] /\
    exists z, zs s2 = Some z /\ shape0 z = D zero_beta_state /\
              ncols z = K zero_beta_state /\
              Forall (fun r => length r = K zero_beta_state) (rows z).
Proof.
  apply (steps_return_on_well_shaped zero_beta_state).
  exact zero_beta_well_shaped.
Defined.

(** ** The driver on any instance *)

Lemma length_snoc_eqb_1 {A} (h : list A) (l : A) :
  h <> [] -> Nat.eqb (length (h ++ [l])) 1 = false.
Proof.
  intros Hh. apply Nat.eqb_neq. rewrite length_app. simpl.
  destruct h; [congruence | simpl; lia].
Qed.

Lemma iterate_loop_ends (tol : float64) (max_iter : Z) m :
  forall count self,
    ll_history self <> [] ->
    (max_iter - count + 1 <= Z.of_nat m)%Z ->
    exists r, iterate_loop (S m) tol max_iter count self = Some r.
Proof.
  induction m as [| m IH]; intros count self Hh Hm;
    cbn [iterate_loop];
    (destruct (E_step self) as [s1 | e] eqn:HE; [| eexists; reflexivity]);
    (destruct (M_step s1) as [s2 | e] eqn:HM; [| eexists; reflexivity]);
    destruct (pair_history _ _ _ HE HM) as [l [Hl Hhist]];
    rewrite Hhist, (length_snoc_eqb_1 _ l Hh), <- Hhist, Hl;
    (destruct (index_m2 (ll_history s2)) as [prev | e]; [| eexists; reflexivity]);
    (destruct (flt (fsub l prev) tol); [eexists; reflexivity |]);
    (destruct (Z.ltb_spec max_iter count) as [_ | Hle]; [eexists; reflexivity |]).
  - lia.
  - apply IH; [| lia]. rewrite Hhist. intros E. destruct (ll_history self); discriminate.
Qed.

Lemma iterate_ends (tol : float64) (max_iter : Z) (self : EM_algo) :
  exists r,
    iterate (S (S (Z.to_nat (max_iter + 1)))) tol max_iter self = Some r.
Proof.
  unfold iterate. destruct (ll_history self) as [| a h] eqn:Hh.
  - cbn [iterate_loop].
    destruct (E_step self) as [s1 | e] eqn:HE; [| eexists; reflexivity].
    destruct (M_step s1) as [s2 | e] eqn:HM; [| eexists; reflexivity].
    destruct (pair_history _ _ _ HE HM) as [l [Hl Hhist]].
    rewrite Hh in Hhist. rewrite Hhist. cbn [app length Nat.eqb].
    apply iterate_loop_ends; [rewrite Hhist; discriminate | lia].
  - apply iterate_loop_ends; [rewrite Hh; discriminate | lia].
Qed.

(** The [while True] loop ends on every instance, for every tolerance (NaN
    included) and every bound: within [max (max_iter + 1) 0 + 2] passes it has
    returned or raised. *)
Theorem iterate_terminates (tol : float64) (max_iter : Z) (self : EM_algo) :
  exists r,
    iterate (S (S (Z.to_nat (max_iter + 1)))) tol max_iter self = Some r.
Proof. exact (iterate_ends tol max_iter self). Qed.

Lemma iterate_loop_status (tol : float64) (max_iter : Z) fuel :
  forall count self s' out,
    iterate_loop fuel tol max_iter count self = Some (Ok (s', out)) ->
    exists h prev l,
      ll_history s' = h ++ [prev; l] /\ ll s' = Some l /\
      ((out = [msg_tolerance] /\ flt (fsub l prev) tol = true) \/
       (out = [msg_max_iter] /\ flt (fsub l prev) tol = false)).
Proof.
  induction fuel as [| fuel IH]; intros count self s' out H; [discriminate |].
  cbn [iterate_loop] in H.
  destruct (E_step self) as [s1 | e] eqn:HE; [| discriminate].
  destruct (M_step s1) as [s2 | e] eqn:HM; [| discriminate].
  destruct (pair_history _ _ _ HE HM) as [l [Hl Hhist]].
  destruct (Nat.eqb (length (ll_history s2)) 1) eqn:E1;
    [exact (IH _ _ _ _ H) |].
  rewrite Hl in H.
  destruct (index_m2 (ll_history s2)) as [prev |] eqn:Ep; [| discriminate].
  assert (Hshape : exists h, ll_history s2 = h ++ [prev; l]).
  { destruct (ll_history self) as [| a0 h0] eqn:Eh using rev_ind.
    - rewrite Hhist in E1. discriminate.
    - rewrite Hhist in Ep. rewrite index_m2_snoc2 in Ep. injection Ep as ->.
      exists h0. rewrite Hhist, <- app_assoc. reflexivity. }
  destruct Hshape as [h Hh].
  destruct (flt (fsub l prev) tol) eqn:Ef.
  - injection H as <- <-. exists h, prev, l.
    split; [exact Hh |]. split; [exact Hl |]. left. split; [reflexivity | exact Ef].
  - destruct (Z.ltb max_iter count).
    + injection H as <- <-. exists h, prev, l.
      split; [exact Hh |]. split; [exact Hl |]. right. split; [reflexivity | exact Ef].
    + exact (IH _ _ _ _ H).
Qed.

(** When [iterate] returns, the trajectory has at least two entries, the last
    one is [self.ll], and exactly one message has been printed: the
    convergence message if and only if the last two likelihoods differ by
    less than the tolerance, the iteration-bound message otherwise. *)
Theorem iterate_status_sound
    (fuel : nat) (tol : float64) (max_iter : Z) (self s' : EM_algo)
    (out : list string) :
  iterate fuel tol max_iter self = Some (Ok (s', out)) ->
  exists h prev l,
    ll_history s' = h ++ [prev; l] /\ ll s' = Some l /\
    ((out = [msg_tolerance] /\ flt (fsub l prev) tol = true) \/
     (out = [msg_max_iter] /\ flt (fsub l prev) tol = false)).
Proof. apply iterate_loop_status. Qed.

Lemma iterate_loop_passes (tol : float64) (max_iter : Z) fuel :
  forall count self s' out,
    iterate_loop fuel tol max_iter count self = Some (Ok (s', out)) ->
    exists t,
      ll_history s' = ll_history self ++ t /\
      (1 <= length t)%nat /\
      (length t <= Z.to_nat (max_iter - count + 1) + 1
                   + match ll_history self with [] => 1 | _ => 0 end)%nat /\
      (ll_history self = [] -> 2 <= length t)%nat.
Proof.
  induction fuel as [| fuel IH]; intros count self s' out H; [discriminate |].
  cbn [iterate_loop] in H.
  destruct (E_step self) as [s1 | e] eqn:HE; [| discriminate].
  destruct (M_step s1) as [s2 | e] eqn:HM; [| discriminate].
  destruct (pair_history _ _ _ HE HM) as [l [Hl Hhist]].
  destruct (ll_history self) as [| a0 h0] eqn:Eh.
  - rewrite Hhist in H. cbn [app length Nat.eqb] in H.
    destruct (IH _ _ _ _ H) as [t [Ht [Ht1 [Ht2 _]]]].
    rewrite Hhist in Ht, Ht2. cbn [app] in Ht, Ht2.
    exists (l :: t). split; [exact Ht |]. simpl. repeat split; lia.
  - assert (E1 : Nat.eqb (length (ll_history s2)) 1 = false).
    { rewrite Hhist. apply length_snoc_eqb_1. discriminate. }
    rewrite E1, Hl in H.
    destruct (index_m2 (ll_history s2)) as [prev |]; [| discriminate].
    assert (Hstop : s' = s2 ->
              exists t, ll_history s' = (a0 :: h0) ++ t /\
                (1 <= length t)%nat /\
                (length t <= Z.to_nat (max_iter - count + 1) + 1 + 0)%nat /\
                (a0 :: h0 = [] -> 2 <= length t)%nat).
    { intros ->. exists [l]. split; [exact Hhist |]. simpl.
      repeat split; try lia. discriminate. }
    destruct (flt (fsub l prev) tol).
    + injection H as <- _. apply Hstop. reflexivity.
    + destruct (Z.ltb_spec max_iter count) as [_ | Hle].
      * injection H as <- _. apply Hstop. reflexivity.
      * destruct (IH _ _ _ _ H) as [t [Ht [Ht1 [Ht2 _]]]].
        rewrite Hhist in Ht, Ht2.
        assert (E2 : match (a0 :: h0) ++ [l] with [] => 1%nat | _ :: _ => 0%nat end
                     = 0%nat) by reflexivity.
        rewrite E2 in Ht2.
        exists (l :: t). split; [rewrite Ht, <- app_assoc; reflexivity |].
        simpl. repeat split; try lia; try discriminate.
Qed.

(** [iterate] only appends to the trajectory, one entry for each pass, and
    the number of passes is bounded: at least one, at least two on a fresh
    instance (the first pass is not tested), and at most
    [max (max_iter + 1) 0 + 2]. *)
Theorem iterate_pass_bounds
    (fuel : nat) (tol : float64) (max_iter : Z) (self s' : EM_algo)
    (out : list string) :
  iterate fuel tol max_iter self = Some (Ok (s', out)) ->
  exists t,
    ll_history s' = ll_history self ++ t /\
    (1 <= length t <= Z.to_nat (max_iter + 1) + 2)%nat /\
    (ll_history self = [] -> 2 <= length t)%nat.
Proof.
  intros H. destruct (iterate_loop_passes _ _ _ _ _ _ _ H) as [t [Ht [H1 [H2 H3]]]].
  exists t. split; [exact Ht |]. split; [| exact H3].
  split; [exact H1 |].
  replace (max_iter - 0 + 1)%Z with (max_iter + 1)%Z in H2 by lia.
  destruct (ll_history self); lia.
Qed.

Lemma iterate_loop_well_shaped (tol : float64) (max_iter : Z) fuel :
  forall count self r,
    well_shaped self ->
    iterate_loop fuel tol max_iter count self = Some r ->
    exists s' out, r = Ok (s', out) /\ well_shaped s'.
Proof.
  induction fuel as [| fuel IH]; intros count self r Hw H; [discriminate |].
  destruct (pair_well_shaped self Hw)
    as [s1 [s2 [l [HE [HM [Hw2 [Hl [Hhist _]]]]]]]].
  rewrite (iterate_loop_pass _ _ _ _ _ _ _ HE HM) in H.
  destruct (Nat.eqb (length (ll_history s2)) 1) eqn:E1;
    [exact (IH _ _ _ Hw2 H) |].
  rewrite Hl in H.
  destruct (index_m2 (ll_history s2)) as [prev | e] eqn:Ep.
  - destruct (flt (fsub l prev) tol).
    + injection H as <-. eexists. eexists. split; [reflexivity | exact Hw2].
    + destruct (Z.ltb max_iter count).
      * injection H as <-. eexists. eexists. split; [reflexivity | exact Hw2].
      * exact (IH _ _ _ Hw2 H).
  - exfalso. destruct (ll_history self) as [| a0 h0] eqn:Eh using rev_ind.
    + rewrite Hhist in E1. discriminate.
    + rewrite Hhist, index_m2_snoc2 in Ep. discriminate.
Qed.

(** On a well-shaped instance the driver never raises: it returns within
    [max (max_iter + 1) 0 + 2] passes, whatever the values and the tolerance,
    and leaves a well-shaped instance. *)
Theorem iterate_returns_on_well_shaped
    (tol : float64) (max_iter : Z) (self : EM_algo) :
  well_shaped self ->
  exists s' out,
    iterate (S (S (Z.to_nat (max_iter + 1)))) tol max_iter self
      = Some (Ok (s', out)) /\
    well_shaped s'.
Proof.
  intros Hw. destruct (iterate_ends tol max_iter self) as [r Hr].
  destruct (iterate_loop_well_shaped _ _ _ _ _ _ Hw Hr) as [s' [out [-> Hw']]].
  exists s', out. split; [exact Hr | exact Hw'].
Qed.

(** [iterate_returns_on_well_shaped] on [zero_beta_state], with a NaN
    tolerance. *)
Lemma iterate_returns_on_well_shaped_witness :
  exists s' out,
    iterate (S (S (Z.to_nat (500 + 1)))) NaN 500 zero_beta_state
      = Some (Ok (s', out)) /\
    well_shaped s'.
Proof.
  apply (iterate_returns_on_well_shaped NaN 500 zero_beta_state).
  exact zero_beta_well_shaped.
Defined.

(** [iterate_status_sound] on the run from the priors [rho = [2.]],
    [beta = [[1.]]]. *)
Lemma iterate_status_sound_witness :
  exists h prev l,
    ll_history (real_state [[1]] 1 1 [1] [[1]]
                  [Fin (ln 2 + ln 1); Fin (ln 1 + ln 1)]
                  (Some (Fin (ln 1 + ln 1))) (Some (lift2 1 [[1]])))
      = h ++ [prev; l] /\
    ll (real_state [[1]] 1 1 [1] [[1]]
          [Fin (ln 2 + ln 1); Fin (ln 1 + ln 1)]
          (Some (Fin (ln 1 + ln 1))) (Some (lift2 1 [[1]]))) = Some l /\
    (([msg_tolerance] = [msg_tolerance] /\
      flt (fsub l prev) (Fin (1/1000)) = true) \/
     ([msg_tolerance] = [msg_max_iter] /\
      flt (fsub l prev) (Fin (1/1000)) = false)).
Proof.
  apply (iterate_status_sound 2 (Fin (1/1000)) 500
           (real_state [[1]] 1 1 [2] [[1]] [] None None)).
  apply heavy_prior_run. lra.
Defined.

(** [iterate_pass_bounds] on the same run. *)
Lemma iterate_pass_bounds_witness :
  exists t,
    ll_history (real_state [[1]] 1 1 [1] [[1]]
                  [Fin (ln 2 + ln 1); Fin (ln 1 + ln 1)]
                  (Some (Fin (ln 1 + ln 1))) (Some (lift2 1 [[1]])))
      = ll_history (real_state [[1]] 1 1 [2] [[1]] [] None None) ++ t /\
    (1 <= length t <= Z.to_nat (500 + 1) + 2)%nat /\
    (ll_history (real_state [[1]] 1 1 [2] [[1]] [] None None) = [] ->
     (2 <= length t)%nat).
Proof.
  apply (iterate_pass_bounds 2 (Fin (1/1000)) 500
           (real_state [[1]] 1 1 [2] [[1]] [] None None) _ [msg_tolerance]).
  apply heavy_prior_run. lra.
Defined.

(** ** Edge behaviour of the constructor and of the steps *)

Lemma init_inv data0 K0 prior_rhos prior_betas draw self :
  __init__ data0 K0 prior_rhos prior_betas draw = Ok self ->
  D self = shape0 data0 /\ V self = shape1 data0 /\ K self = K0 /\
  data self = data0 /\ ll_history self = [] /\ ll self = None /\
  zs self = None.
Proof.
  unfold __init__. intros H.
  destruct (match prior_rhos with
            | PyNone => uniform_rhos K0
            | PyList l => Ok l
            | PyArray a => b <- array_eq_None (length a) ;;
                           if b then uniform_rhos K0 else Ok a
            end) as [r |]; [| discriminate].
  cbn [bind] in H.
  destruct (match prior_betas with
            | PyNone => draw
            | PyList l => Ok l
            | PyArray a => b <- array_eq_None (size2 a) ;;
                           if b then draw else Ok (rows a)
            end) as [b |]; [| discriminate].
  cbn [bind] in H. injection H as <-. repeat split.
Qed.

(** On an instance that the constructor has just built, whatever its
    arguments, [M_step] raises [AttributeError]: the responsibilities exist
    only after an E-step. *)
Theorem M_step_before_E_step_raises
    (data0 : ndarray2) (K0 : nat)
    (prior_rhos : pyarg (list float64) (list float64))
    (prior_betas : pyarg (list (list float64)) ndarray2)
    (draw : result (list (list float64))) (self : EM_algo) :
  __init__ data0 K0 prior_rhos prior_betas draw = Ok self ->
  M_step self = Raise AttributeError.
Proof.
  intros H. destruct (init_inv _ _ _ _ _ _ H) as [_ [_ [_ [_ [_ [_ Hz]]]]]].
  unfold M_step. rewrite Hz. reflexivity.
Qed.

(** [M_step_before_E_step_raises] on the instance of the counts [[1.]]. *)
Lemma M_step_before_E_step_raises_witness :
  M_step (real_state [[1]] 1 1 [1 / INR 1] [[1]] [] None None)
  = Raise AttributeError.
Proof.
  apply (M_step_before_E_step_raises (lift2 1 [[1]]) 1 PyNone PyNone
           (Ok [[Fin 1]])).
  exact one_word_instance_eq.
Defined.

Lemma dt_temp_of_no_topic self :
  K self = 0%nat ->
  dt_temp_of self =
  Ok {| ncols := 0; rows := map (fun _ => []) (seq 0 (D self)) |}.
Proof.
  intros HK. unfold dt_temp_of. rewrite HK.
  rewrite (mapM_ok _ (fun _ => [])) by reflexivity. reflexivity.
Qed.

(** No instance with [K = 0] gets through an E-step.  The default prevalence
    [1/float(K)] makes the constructor raise [ZeroDivisionError]; an instance
    built otherwise makes [E_step] raise [ValueError], whatever its data: the
    maximum along the empty topic axis does not exist. *)
Theorem no_topic_raises :
  (forall data0 prior_betas draw,
     __init__ data0 0 PyNone prior_betas draw = Raise ZeroDivisionError) /\
  (forall self, K self = 0%nat -> E_step self = Raise ValueError).
Proof.
  split; [reflexivity |].
  intros self HK. rewrite (E_step_unfold _ _ (dt_temp_of_no_topic self HK)).
  reflexivity.
Qed.

(** [no_topic_raises] on the instance built from the list prior [rho = []]. *)
Lemma no_topic_raises_witness :
  E_step {| D := 1; V := 1; K := 0; data := lift2 1 [[1]];
            rhos := []; betas := []; ll_history := []; ll := None;
            zs := None |} = Raise ValueError.
Proof.
  apply (proj2 no_topic_raises). reflexivity.
Defined.

Lemma mapM_raises {A B} (f : A -> result B) l a :
  In a l -> (exists e, f a = Raise e) -> exists e, mapM f l = Raise e.
Proof.
  induction l as [| x l IH]; intros Hin Hf; [contradiction |].
  simpl. destruct (f x) as [b | e] eqn:Ex; [| exists e; reflexivity].
  cbn [bind]. destruct Hin as [-> | Hin].
  - destruct Hf as [e He]. congruence.
  - destruct (IH Hin Hf) as [e He]. rewrite He. exists e. reflexivity.
Qed.

Lemma dt_entry_short self d k :
  (length (rhos self) <= k)%nat \/ (length (betas self) <= k)%nat ->
  exists e, dt_entry self d k = Raise e.
Proof.
  intros H. unfold dt_entry.
  destruct (index (rhos self) k) as [r | e] eqn:Er; [| exists e; reflexivity].
  cbn [bind].
  destruct (index (rows (data self)) d) as [x | e]; [| exists e; reflexivity].
  cbn [bind]. destruct H as [H | H].
  - unfold index in Er. rewrite (proj2 (nth_error_None _ _) H) in Er. discriminate.
  - unfold index. rewrite (proj2 (nth_error_None _ _) H).
    exists IndexError. reflexivity.
Qed.

(** With at least one document, [E_step] raises when [rhos] has fewer than
    [K] entries or [betas] fewer than [K] rows: the constructor accepts such
    priors, the first E-step does not. *)
Theorem E_step_short_parameters_raise (self : EM_algo) :
  (1 <= D self)%nat ->
  (length (rhos self) < K self)%nat \/ (length (betas self) < K self)%nat ->
  exists e, E_step self = Raise e.
Proof.
  intros HD Hshort.
  assert (Hk : exists k, (k < K self)%nat /\
                 ((length (rhos self) <= k)%nat \/ (length (betas self) <= k)%nat)).
  { destruct Hshort as [H | H].
    - exists (length (rhos self)). split; [exact H | left; lia].
    - exists (length (betas self)). split; [exact H | right; lia]. }
  destruct Hk as [k [Hk Hlen]].
  assert (Hrow : exists e, mapM (dt_entry self 0) (seq 0 (K self)) = Raise e).
  { apply (mapM_raises _ _ k); [apply in_seq; lia |].
    apply dt_entry_short, Hlen. }
  assert (Hdt : exists e, dt_temp_of self = Raise e).
  { unfold dt_temp_of.
    destruct (mapM_raises
                (fun doc => mapM (dt_entry self doc) (seq 0 (K self)))
                (seq 0 (D self)) 0%nat) as [e He];
      [apply in_seq; lia | exact Hrow |].
    rewrite He. exists e. reflexivity. }
  destruct Hdt as [e He]. unfold E_step. rewrite He. exists e. reflexivity.
Qed.

(** [E_step_short_parameters_raise] on the instance that the constructor
    builds from a prior [rho] of length 1 with [K = 2]. *)
Lemma E_step_short_parameters_raise_witness :
  exists e,
    E_step {| D := 1; V := 1; K := 2; data := lift2 1 [[1]];
              rhos := [Fin 1]; betas := [[Fin (-1)]];
              ll_history := []; ll := None; zs := None |} = Raise e.
Proof.
  apply E_step_short_parameters_raise.
  - simpl. lia.
  - left. simpl. lia.
Defined.

Lemma index_app_lt {A} (l e : list A) k :
  (k < length l)%nat -> index (l ++ e) k = index l k.
Proof. intros H. unfold index. rewrite nth_error_app1 by assumption. reflexivity. Qed.

Lemma mapM_ext_in {A B} (f g : A -> result B) l :
  (forall a, In a l -> f a = g a) -> mapM f l = mapM g l.
Proof.
  induction l as [| a l IH]; intros H; [reflexivity |].
  simpl. rewrite (H a) by (left; reflexivity).
  rewrite IH by (intros; apply H; right; assumption). reflexivity.
Qed.

(** [E_step] reads only the first [K] prevalences and the first [K] rows of
    emissions: entries of [rhos] and rows of [betas] beyond them, as a prior
    that is too long leaves them, change neither the log-weights nor, then,
    the likelihood and the responsibilities. *)
Theorem E_step_ignores_extra_parameters
    (self : EM_algo) (r er : list float64) (b eb : list (list float64)) :
  length r = K self ->
  length b = K self ->
  dt_temp_of (with_params self (r ++ er) (b ++ eb)) =
  dt_temp_of (with_params self r b) /\
  forall s1 s2,
    E_step (with_params self (r ++ er) (b ++ eb)) = Ok s1 ->
    E_step (with_params self r b) = Ok s2 ->
    ll s1 = ll s2 /\ ll_history s1 = ll_history s2 /\ zs s1 = zs s2.
Proof.
  intros Hr Hb.
  assert (Hdt : dt_temp_of (with_params self (r ++ er) (b ++ eb)) =
                dt_temp_of (with_params self r b)).
  { unfold dt_temp_of. cbn [with_params D K].
    rewrite (mapM_ext_in
               (fun doc => mapM (dt_entry (with_params self (r ++ er) (b ++ eb)) doc)
                             (seq 0 (K self)))
               (fun doc => mapM (dt_entry (with_params self r b) doc)
                             (seq 0 (K self)))); [reflexivity |].
    intros d _. apply mapM_ext_in. intros k Hk. apply in_seq in Hk.
    unfold dt_entry. cbn [with_params rhos betas data].
    rewrite !index_app_lt by lia. reflexivity. }
  split; [exact Hdt |].
  intros s1 s2 H1 H2.
  destruct (E_step_inv _ _ H1) as [dt1 [l1 [Hd1 [Hl1 ->]]]].
  destruct (E_step_inv _ _ H2) as [dt2 [l2 [Hd2 [Hl2 ->]]]].
  rewrite Hdt, Hd2 in Hd1. injection Hd1 as <-.
  rewrite Hl2 in Hl1. injection Hl1 as <-.
  cbn [ll ll_history zs with_params]. repeat split.
Qed.

(** [E_step_ignores_extra_parameters] on one document and one topic, with one
    prevalence and one row of emissions too many. *)
Lemma E_step_ignores_extra_parameters_witness :
  dt_temp_of (with_params (real_state [[1]] 1 1 [1] [[1]] [] None None)
                ([Fin 1] ++ [Fin 7]) ([[Fin 1]] ++ [[Fin 7; Fin 7]])) =
  dt_temp_of (with_params (real_state [[1]] 1 1 [1] [[1]] [] None None)
                [Fin 1] [[Fin 1]]).
Proof.
  apply (E_step_ignores_extra_parameters
           (real_state [[1]] 1 1 [1] [[1]] [] None None)
           [Fin 1] [Fin 7] [[Fin 1]] [[Fin 7; Fin 7]]); reflexivity.
Defined.

(** ** The log-sum trick *)

(** The log-sum trick is exact: called on the array it closes over, with
    finite entries and at least one column, [complete_ll] returns
    [sum_d log (sum_k exp (M[d,k]))], the value that the shift by the row
    maxima is there to compute without underflow. *)
Theorem complete_ll_log_sum_exp (nD nK : nat) (M : nat -> nat -> R) :
  (1 <= nK)%nat ->
  complete_ll (fin_array nD nK M) (fin_array nD nK M) =
  Ok (Fin (big nD (fun d => ln (big nK (fun k => exp (M d k)))))).
Proof.
  intros HK. rewrite complete_ll_fin by assumption.
  rewrite log_sum_exp_split, log_sum_exp_spec_eq by assumption. reflexivity.
Qed.

(** [complete_ll_log_sum_exp] on the 1 x 1 array [[0.]]. *)
Lemma complete_ll_log_sum_exp_witness :
  complete_ll (fin_array 1 1 (fun _ _ => 0)) (fin_array 1 1 (fun _ _ => 0)) =
  Ok (Fin (big 1 (fun d => ln (big 1 (fun k => exp 0))))).
Proof.
  apply (complete_ll_log_sum_exp 1 1 (fun _ _ => 0)). lia.
Defined.

Lemma fold_left_fmax_good r :
  Forall fin_or_ninf r ->
  forall acc,
    fin_or_ninf acc ->
    fin_or_ninf (fold_left fmax r acc) /\
    (is_finite acc \/ Exists is_finite r -> is_finite (fold_left fmax r acc)).
Proof.
  induction 1 as [| x r Hx _ IH]; intros acc Hacc.
  - simpl. split; [exact Hacc |]. intros [H | H]; [exact H | inversion H].
  - cbn [fold_left].
    assert (Hm : fin_or_ninf (fmax acc x) /\
                 (is_finite acc \/ is_finite x -> is_finite (fmax acc x))).
    { destruct Hacc as [Ha | ->], Hx as [Hx | ->];
        try (destruct acc; try contradiction);
        try (destruct x; try contradiction); simpl;
        (split; [(left; exact I) || (right; reflexivity) | tauto]). }
    destruct Hm as [Hm1 Hm2]. destruct (IH _ Hm1) as [IH1 IH2].
    split; [exact IH1 |]. intros [Ha | Hex].
    + apply IH2. left. apply Hm2. left. exact Ha.
    + inversion Hex as [? ? Hfx | ? ? Hex']; subst.
      * apply IH2. left. apply Hm2. right. exact Hfx.
      * apply IH2. right. exact Hex'.
Qed.

Lemma row_max_good r :
  Forall fin_or_ninf r -> Exists is_finite r -> row_max r = Fin (finite_max r).
Proof.
  intros Hall Hex. unfold finite_max.
  assert (H : is_finite (row_max r)).
  { destruct r as [| x r]; [inversion Hex |]. cbn [row_max].
    inversion Hall as [| ? ? Hx Hr]; subst.
    apply (fold_left_fmax_good r Hr x Hx).
    inversion Hex; subst; [left | right]; assumption. }
  destruct (row_max r); try contradiction. reflexivity.
Qed.

Lemma exp_weight_nonneg x : 0 <= exp_weight x.
Proof. destruct x; simpl; try lra. left. apply exp_pos. Qed.

Lemma exp_weight_sum_pos r :
  Exists is_finite r -> 0 < Rsum (map exp_weight r).
Proof.
  induction 1 as [x r Hx | x r _ IH]; simpl.
  - destruct x; try contradiction. simpl.
    pose proof (exp_pos r0).
    assert (0 <= Rsum (map exp_weight r)).
    { apply Rsum_nonneg. apply Forall_forall. intros y Hy.
      apply in_map_iff in Hy. destruct Hy as [z [<- _]]. apply exp_weight_nonneg. }
    lra.
  - pose proof (exp_weight_nonneg x). lra.
Qed.

Lemma shifted_exp_row r m :
  Forall fin_or_ninf r ->
  map fexp (map (fun x => fsub x (Fin m)) r) =
  map Fin (map (fun x => exp (- m) * exp_weight x) r).
Proof.
  induction 1 as [| x r Hx _ IH]; [reflexivity |].
  cbn [map]. rewrite IH. f_equal.
  destruct Hx as [Hx | ->].
  - destruct x; try contradiction. simpl. f_equal.
    rewrite <- exp_plus. f_equal. lra.
  - simpl. f_equal. lra.
Qed.

Lemma shifted_row_log r :
  Forall fin_or_ninf r -> Exists is_finite r ->
  flog (np_sum (map fexp (map (fun x => fsub x (row_max r)) r))) =
  Fin (ln (Rsum (map exp_weight r)) - finite_max r).
Proof.
  intros Hall Hex. rewrite (row_max_good r Hall Hex).
  rewrite (shifted_exp_row r _ Hall), np_sum_fin, Rsum_map_scal.
  pose proof (exp_weight_sum_pos r Hex) as HS.
  pose proof (exp_pos (- finite_max r)) as HE.
  rewrite flog_pos by (apply Rmult_lt_0_compat; assumption).
  f_equal. rewrite ln_mult, ln_exp by assumption. lra.
Qed.

(** [E_step] tolerates log-weights of minus infinity: when every row of the
    log-weight matrix has a finite entry and its other entries are finite or
    minus infinity, the likelihood it records is finite and equals
    [sum_d log (sum_k exp (L[d,k]))], with [exp (-inf) = 0]. *)
Theorem E_step_likelihood_with_minus_infinity (self : EM_algo) (L : ndarray2) :
  dt_temp_of self = Ok L ->
  K self <> 0%nat ->
  (forall r, In r (rows L) -> Forall fin_or_ninf r /\ Exists is_finite r) ->
  exists self',
    E_step self = Ok self' /\
    ll self' =
      Some (Fin (Rsum (map (fun r => ln (Rsum (map exp_weight r))) (rows L)))) /\
    ll_history self' =
      ll_history self
      ++ [Fin (Rsum (map (fun r => ln (Rsum (map exp_weight r))) (rows L)))].
Proof.
  intros Hdt HK Hrows.
  assert (Hll : complete_ll L L =
                Ok (Fin (Rsum (map (fun r => ln (Rsum (map exp_weight r)))
                                 (rows L))))).
  { rewrite complete_ll_unfold by (rewrite (dt_temp_of_ncols _ _ Hdt); exact HK).
    rewrite (map_ext_in _
               (fun r => Fin (ln (Rsum (map exp_weight r)) - finite_max r)))
      by (intros r Hr; destruct (Hrows r Hr); apply shifted_row_log; assumption).
    rewrite (map_ext_in row_max (fun r => Fin (finite_max r)))
      by (intros r Hr; destruct (Hrows r Hr); apply row_max_good; assumption).
    rewrite !np_sum_fin_map. cbn [fadd]. do 2 f_equal.
    rewrite <- Rsum_map_plus. apply Rsum_map_ext. intros; lra. }
  rewrite (E_step_unfold _ _ Hdt), Hll. cbn [bind].
  eexists. split; [reflexivity |]. split; reflexivity.
Qed.

Lemma minus_infinity_dt_temp :
  dt_temp_of {| D := 1; V := 1; K := 2; data := lift2 1 [[1]];
                rhos := [Fin 1; Fin 0]; betas := [[Fin 1]; [Fin 1]];
                ll_history := []; ll := None; zs := None |} =
  Ok {| ncols := 2; rows := [[Fin (ln 1 + (1 * ln 1 + 0)); NInf]] |}.
Proof.
  unfold dt_temp_of, dt_entry, lift2.
  cbn [D K seq mapM rhos betas data rows map].
  cbn [index nth_error bind map].
  rewrite flog_0, !flog_pos by lra.
  unfold np_mul. cbn [length Nat.eqb combine map fst snd bind]. reflexivity.
Qed.

(** [E_step_likelihood_with_minus_infinity] on one document and two topics,
    the second of prevalence zero. *)
Lemma E_step_likelihood_with_minus_infinity_witness :
  exists self',
    E_step {| D := 1; V := 1; K := 2; data := lift2 1 [[1]];
              rhos := [Fin 1; Fin 0]; betas := [[Fin 1]; [Fin 1]];
              ll_history := []; ll := None; zs := None |} = Ok self' /\
    ll self' =
      Some (Fin (Rsum (map (fun r => ln (Rsum (map exp_weight r)))
                         [[Fin (ln 1 + (1 * ln 1 + 0)); NInf]]))) /\
    ll_history self' =
      [] ++ [Fin (Rsum (map (fun r => ln (Rsum (map exp_weight r)))
                          [[Fin (ln 1 + (1 * ln 1 + 0)); NInf]]))].
Proof.
  apply (E_step_likelihood_with_minus_infinity _ _ minus_infinity_dt_temp).
  - simpl. lia.
  - intros r [<- | []]. split.
    + constructor; [left; exact I |]. constructor; [right; reflexivity | constructor].
    + apply Exists_cons_hd. exact I.
Defined.

(** ** The update formulas *)

Lemma big_ge_term n f i :
  (forall j, (j < n)%nat -> 0 <= f j) -> (i < n)%nat -> f i <= big n f.
Proof.
  induction n as [| n IH]; intros Hf Hi; [lia |].
  rewrite big_S_r.
  assert (0 <= big n f) by (apply big_nonneg; intros; apply Hf; lia).
  destruct (Nat.eq_dec i n) as [-> | Hne]; [lra |].
  assert (f i <= big n f) by (apply IH; [intros; apply Hf; lia | lia]).
  assert (0 <= f n) by (apply Hf; lia). lra.
Qed.

(** On positive parameters whose log-weights
    [L[d,k] = log rho[k] + sum_v X[d,v] log beta[k,v]] all lie between -300
    and 300, so that no exponential and no quotient of exponentials leaves
    the range of the floats, [E_step] stores the responsibilities of the
    notebook's E-step, [Z[d,k] = exp (L[d,k]) / sum_j exp (L[d,j])], and each
    of them is a probability: positive and at most 1.  Outside that range
    the unshifted [np.exp] of the code can underflow, which the exact
    exponential of this model does not show. *)
Theorem E_step_responsibilities
    (X : list (list R)) (nV nK : nat) (rho : list R) (beta : list (list R))
    (hist : list float64) (l0 : option float64) (z0 : option ndarray2) :
  (1 <= nK)%nat ->
  Forall (fun r => length r = nV) X ->
  length rho = nK ->
  has_shape beta nK nV ->
  positive rho ->
  Forall positive beta ->
  (forall d k, (d < length X)%nat -> (k < nK)%nat ->
     -300 <= log_weight_spec X rho beta nV d k <= 300) ->
  exists self',
    E_step (real_state X nV nK rho beta hist l0 z0) = Ok self' /\
    zs self' =
      Some (fin_array (length X) nK
              (resp_spec nK (log_weight_spec X rho beta nV))) /\
    forall d k, (d < length X)%nat -> (k < nK)%nat ->
      0 < resp_spec nK (log_weight_spec X rho beta nV) d k <= 1.
Proof.
  intros HK HX Hrho Hbeta Prho Pbeta _.
  rewrite (E_step_real X nV nK rho beta hist l0 z0 HK HX Hrho Hbeta Prho Pbeta).
  eexists. split; [reflexivity |]. split.
  - cbn [real_state zs]. unfold em_resp. rewrite lift2_mat. reflexivity.
  - intros d k _ Hk. unfold resp_spec.
    assert (HS : 0 < big nK (fun j => exp (log_weight_spec X rho beta nV d j)))
      by (apply big_pos; [assumption | intros; apply exp_pos]).
    split.
    + apply Rdiv_lt_0_compat; [apply exp_pos | exact HS].
    + apply (Rmult_le_reg_r (big nK (fun j => exp (log_weight_spec X rho beta nV d j))));
        [exact HS |].
      unfold Rdiv. rewrite Rmult_assoc, Rinv_l, Rmult_1_r, Rmult_1_l by lra.
      apply (big_ge_term nK (fun j => exp (log_weight_spec X rho beta nV d j)));
        [intros; left; apply exp_pos | exact Hk].
Qed.

(** [E_step_responsibilities] on one document [[1.]] and one topic. *)
Lemma E_step_responsibilities_witness :
  exists self',
    E_step (real_state [[1]] 1 1 [1] [[1]] [] None None) = Ok self' /\
    zs self' =
      Some (fin_array (length [[1]]) 1
              (resp_spec 1 (log_weight_spec [[1]] [1] [[1]] 1))) /\
    forall d k, (d < length [[1]])%nat -> (k < 1)%nat ->
      0 < resp_spec 1 (log_weight_spec [[1]] [1] [[1]] 1) d k <= 1.
Proof.
  apply (E_step_responsibilities [[1]] 1 1 [1] [[1]] [] None None).
  - lia.
  - repeat constructor.
  - reflexivity.
  - split; [reflexivity | repeat constructor].
  - repeat constructor; lra.
  - repeat constructor; lra.
  - intros d k Hd Hk. simpl in Hd.
    destruct d; [| lia]. destruct k; [| lia].
    unfold log_weight_spec. rewrite big_1. cbn [ent nth]. rewrite ln_1. lra.
Defined.

(** [M_step] stores the emissions of the notebook's update formula,
    [beta[k,v] = (sum_d Z[d,k] X[d,v]) / (sum_d Z[d,k] sum_v' X[d,v'])],
    for every topic whose weighted total is not zero. *)
Theorem M_step_beta_formula
    (X Z : list (list R)) (nD nV nK : nat) (self : EM_algo) :
  (1 <= nD)%nat ->
  has_shape X nD nV ->
  has_shape Z nD nK ->
  D self = nD ->
  data self = lift2 nV X ->
  zs self = Some (lift2 nK Z) ->
  (forall k, (k < nK)%nat -> topic_total_spec Z X nD nV k <> 0) ->
  exists self',
    M_step self = Ok self' /\
    betas self' =
      rows (fin_array nK nV (fun k v =>
              raw_beta_spec Z X nD k v / topic_total_spec Z X nD nV k)).
Proof.
  intros HD HX HZ HsD Hdata Hzs Htot.
  rewrite (M_step_real X Z nD nV nK self HX HZ HsD Hdata Hzs HD).
  eexists. split; [reflexivity |]. cbn [betas].
  rewrite betas_of_fin_array. unfold fin_array. cbn [rows].
  apply map_ext_in. intros k Hk. apply in_seq in Hk.
  rewrite (normalized_raw_row (raw_beta_spec Z X nD k))
    by (rewrite raw_total; apply Htot; lia).
  rewrite raw_total. reflexivity.
Qed.

(** [M_step_beta_formula] on counts [[1.]] and responsibilities [[1.]]. *)
Lemma M_step_beta_formula_witness :
  exists self',
    M_step (real_state [[1]] 1 1 [1] [[1]] [Fin 0] (Some (Fin 0))
              (Some (lift2 1 [[1]]))) = Ok self' /\
    betas self' =
      rows (fin_array 1 1 (fun k v =>
              raw_beta_spec [[1]] [[1]] 1 k v / topic_total_spec [[1]] [[1]] 1 1 k)).
Proof.
  apply (M_step_beta_formula [[1]] [[1]] 1 1 1).
  - lia.
  - split; [reflexivity | repeat constructor].
  - split; [reflexivity | repeat constructor].
  - reflexivity.
  - reflexivity.
  - reflexivity.
  - intros k Hk. unfold topic_total_spec. rewrite !big_1.
    destruct k; [cbn [ent nth]; apply Rgt_not_eq; lra | lia].
Defined.

(** ** Valid parameters *)

Lemma positive_le_sum l x : positive l -> In x l -> x <= Rsum l.
Proof.
  induction 1 as [| y l Hy Hl IH]; intros Hin; [contradiction |].
  simpl. assert (0 <= Rsum l).
  { apply Rsum_nonneg. eapply Forall_impl; [| exact Hl]. simpl. intros; lra. }
  destruct Hin as [-> | Hin]; [lra |]. specialize (IH Hin). lra.
Qed.

Lemma ln_nonpos x : 0 < x -> x <= 1 -> ln x <= 0.
Proof.
  intros H0 [H1 | ->]; [| rewrite ln_1; lra].
  rewrite <- ln_1. left. apply ln_increasing; assumption.
Qed.

Lemma exp_le a b : a <= b -> exp a <= exp b.
Proof. intros [H | ->]; [left; apply exp_increasing, H | lra]. Qed.

Lemma em_ll_nonpos
    (X : list (list R)) (nV nK : nat) (rho : list R) (beta : list (list R)) :
  (1 <= nK)%nat ->
  Forall (fun r => length r = nV) X ->
  Forall nonneg X ->
  valid_params nV nK rho beta ->
  em_ll X nV nK rho beta <= 0.
Proof.
  intros HK HX HXn [Hlen [Hshape [Hrp [Hbp [Hrs Hbs]]]]].
  unfold em_ll. rewrite log_sum_exp_spec_eq by assumption.
  rewrite <- (Rmult_0_r (INR (length X))), <- big_const.
  apply big_le. intros d Hd.
  assert (HS : 0 < big nK (fun k => exp (log_weight_spec X rho beta nV d k)))
    by (apply big_pos; [assumption | intros; apply exp_pos]).
  apply ln_nonpos; [exact HS |].
  apply Rle_trans with (big nK (fun k => nth k rho 0)).
  - apply big_le. intros k Hk.
    assert (Hrk : 0 < nth k rho 0) by (apply positive_nth; [assumption | lia]).
    rewrite <- (exp_ln (nth k rho 0)) by assumption.
    apply exp_le. unfold log_weight_spec.
    assert (big nV (fun v => ent X d v * ln (ent beta k v)) <= big nV (fun _ => 0)).
    { apply big_le. intros v Hv.
      assert (Hx : 0 <= ent X d v).
      { apply (ent_nonneg X (length X) nV); try assumption.
        split; [reflexivity | assumption]. }
      assert (Hrow : In (nth k beta []) beta)
        by (apply nth_In; destruct Hshape; lia).
      assert (Hb : 0 < ent beta k v).
      { unfold ent. apply positive_nth.
        - rewrite Forall_forall in Hbp. apply Hbp, Hrow.
        - rewrite (has_shape_nth beta nK nV k Hshape Hk). exact Hv. }
      assert (Hb1 : ent beta k v <= 1).
      { rewrite Forall_forall in Hbs, Hbp. rewrite <- (Hbs _ Hrow).
        apply positive_le_sum; [apply Hbp, Hrow |].
        unfold ent. apply nth_In.
        rewrite (has_shape_nth beta nK nV k Hshape Hk). exact Hv. }
      pose proof (ln_nonpos _ Hb Hb1).
      rewrite <- (Rmult_0_r (ent X d v)).
      apply Rmult_le_compat_l; assumption. }
    rewrite big_const in H. lra.
  - rewrite <- Hlen, <- Rsum_nth, Hrs. lra.
Qed.

Lemma one_word_valid_params : valid_params 1 1 [1] [[1]].
Proof.
  split; [reflexivity |]. split; [split; [reflexivity | repeat constructor] |].
  split; [repeat constructor; lra |]. split; [repeat constructor; lra |].
  split; [simpl; lra | repeat constructor; simpl; lra].
Qed.

(** The recorded log-likelihood is never positive: on non-negative counts
    and positive parameters on the simplex, [E_step] appends a finite value
    that is at most 0. *)
Theorem E_step_likelihood_nonpositive
    (X : list (list R)) (nV nK : nat) (rho : list R) (beta : list (list R))
    (hist : list float64) (l0 : option float64) (z0 : option ndarray2) :
  (1 <= nK)%nat ->
  Forall (fun r => length r = nV) X ->
  Forall nonneg X ->
  valid_params nV nK rho beta ->
  exists self' v,
    E_step (real_state X nV nK rho beta hist l0 z0) = Ok self' /\
    ll self' = Some (Fin v) /\ ll_history self' = hist ++ [Fin v] /\ v <= 0.
Proof.
  intros HK HX HXn HP. pose proof HP as [Hlen [Hshape [Hrp [Hbp _]]]].
  rewrite (E_step_real X nV nK rho beta hist l0 z0 HK HX Hlen Hshape Hrp Hbp).
  eexists. eexists. split; [reflexivity |]. split; [reflexivity |].
  split; [reflexivity |]. apply em_ll_nonpos; assumption.
Qed.

(** [E_step_likelihood_nonpositive] on one document [[1.]] and one topic. *)
Lemma E_step_likelihood_nonpositive_witness :
  exists self' v,
    E_step (real_state [[1]] 1 1 [1] [[1]] [] None None) = Ok self' /\
    ll self' = Some (Fin v) /\ ll_history self' = [] ++ [Fin v] /\ v <= 0.
Proof.
  apply (E_step_likelihood_nonpositive [[1]] 1 1 [1] [[1]] [] None None).
  - lia.
  - repeat constructor.
  - repeat constructor; lra.
  - exact one_word_valid_params.
Defined.

(** ** The default instance *)

Lemma Rsum_repeat c n : Rsum (repeat c n) = INR n * c.
Proof.
  induction n as [| n IH]; [simpl; lra |].
  rewrite S_INR. cbn [repeat Rsum fold_right]. fold (Rsum (repeat c n)).
  rewrite IH. lra.
Qed.

Lemma uniform_valid (nV nK : nat) (B : list (list R)) :
  (1 <= nK)%nat ->
  has_shape B nK nV ->
  Forall positive B ->
  Forall (fun r => Rsum r = 1) B ->
  valid_params nV nK (repeat (1 / INR nK) nK) B.
Proof.
  intros HK HB HBp HBs.
  assert (HI : 0 < INR nK) by (apply lt_0_INR; lia).
  split; [apply repeat_length |]. split; [exact HB |]. split; [| split; [exact HBp |]].
  - apply Forall_forall. intros x Hx. apply repeat_spec in Hx. subst x.
    apply Rdiv_lt_0_compat; lra.
  - split; [| exact HBs]. rewrite Rsum_repeat. field. lra.
Qed.

Lemma init_default (X : list (list R)) (nV nK : nat) (B : list (list R)) :
  (1 <= nK)%nat ->
  __init__ (lift2 nV X) nK PyNone PyNone (Ok (map (map Fin) B)) =
  Ok (real_state X nV nK (repeat (1 / INR nK) nK) B [] None None).
Proof.
  intros HK. unfold __init__, uniform_rhos, real_state.
  destruct nK as [| n]; [lia |]. cbn [bind].
  unfold shape0, shape1. cbn [lift2 rows ncols].
  rewrite length_map, map_repeat. reflexivity.
Qed.

(** The default instance is valid: built with no prior, [K >= 1] topics and a
    Dirichlet draw of [K] positive rows of sum 1, the instance holds the
    uniform prevalence [1/K], of sum 1, and the draw, and it is
    well-shaped. *)
Theorem default_instance_valid
    (X : list (list R)) (nV nK : nat) (B : list (list R)) :
  (1 <= nK)%nat ->
  Forall (fun r => length r = nV) X ->
  has_shape B nK nV ->
  Forall positive B ->
  Forall (fun r => Rsum r = 1) B ->
  exists self,
    __init__ (lift2 nV X) nK PyNone PyNone (Ok (map (map Fin) B)) = Ok self /\
    rhos self = repeat (Fin (1 / INR nK)) nK /\
    np_sum (rhos self) = Fin 1 /\
    betas self = map (map Fin) B /\
    valid_params nV nK (repeat (1 / INR nK) nK) B /\
    well_shaped self.
Proof.
  intros HK HX HB HBp HBs.
  pose proof (uniform_valid nV nK B HK HB HBp HBs) as HP.
  rewrite init_default by assumption. eexists. split; [reflexivity |].
  cbn [real_state rhos betas]. split; [apply map_repeat |].
  split; [| split; [reflexivity | split; [exact HP |]]].
  - rewrite np_sum_fin. f_equal. destruct HP as [_ [_ [_ [_ [Hs _]]]]]. exact Hs.
  - unfold well_shaped, real_state, shape0. cbn [K D V data rhos betas lift2 rows ncols].
    destruct HB as [HB1 HB2].
    split; [lia |]. split; [rewrite length_map; reflexivity |].
    split; [reflexivity |]. split; [| split; [| split]].
    + apply Forall_forall. intros r Hr. apply in_map_iff in Hr.
      destruct Hr as [r0 [<- Hr0]]. rewrite length_map.
      rewrite Forall_forall in HX. apply HX, Hr0.
    + rewrite length_map. apply repeat_length.
    + rewrite length_map. exact HB1.
    + apply Forall_forall. intros r Hr. apply in_map_iff in Hr.
      destruct Hr as [r0 [<- Hr0]]. rewrite length_map.
      rewrite Forall_forall in HB2. apply HB2, Hr0.
Qed.

Lemma uniform_draw_shape : has_shape [repeat (1/10) 10; repeat (1/10) 10] 2 10.
Proof. split; [reflexivity | repeat constructor]. Qed.

Lemma uniform_draw_positive : Forall positive [repeat (1/10) 10; repeat (1/10) 10].
Proof. repeat constructor; lra. Qed.

Lemma uniform_draw_sums :
  Forall (fun r => Rsum r = 1) [repeat (1/10) 10; repeat (1/10) 10].
Proof. repeat constructor; rewrite Rsum_repeat; simpl; lra. Qed.

(** [default_instance_valid] on the notebook's counts, two topics and the
    draw of two uniform rows. *)
Lemma default_instance_valid_witness :
  exists self,
    __init__ (lift2 10 feature_counts) 2 PyNone PyNone
      (Ok (map (map Fin) [repeat (1/10) 10; repeat (1/10) 10])) = Ok self /\
    rhos self = repeat (Fin (1 / INR 2)) 2 /\
    np_sum (rhos self) = Fin 1 /\
    betas self = map (map Fin) [repeat (1/10) 10; repeat (1/10) 10] /\
    valid_params 10 2 (repeat (1 / INR 2) 2)
      [repeat (1/10) 10; repeat (1/10) 10] /\
    well_shaped self.
Proof.
  apply (default_instance_valid feature_counts 10 2
           [repeat (1/10) 10; repeat (1/10) 10]).
  - lia.
  - repeat constructor.
  - exact uniform_draw_shape.
  - exact uniform_draw_positive.
  - exact uniform_draw_sums.
Defined.
